(** * google-proxy: a shallow embedding of [main.go] and its properties

    The development follows the layout of the Go source.  Part I holds the
    model: the Go library primitives the program calls (time, strings, net,
    net/http headers), then the per-IP token bucket limiter, the request
    forwarder, the buffer pool, the day-rotating log writer, the access-log
    channel and the middleware chain.  Part II holds the properties.

    Conventions.
    - A [time.Time] is its monotonic clock reading in nanoseconds, a
      [time.Duration] is a number of nanoseconds.
    - A [float64] is modelled by an exact rational ([Q]): rounding is
      abstracted away, comparisons and the order of operations are kept.
    - A Go [string] is a [string] of bytes; an [http.Header] is a finite map
      from keys to the list of values of that key.
    - Library functions are modelled after the Go 1.24 standard library (the
      toolchain of the repository's Dockerfile). *)

From Stdlib Require Import ZArith QArith Lqa Lia Bool List Ascii String.
From stdpp Require Import base option strings list gmap.

Local Open Scope Z_scope.

(** * Part I: the model *)

(** ** package time *)

Module Time.

Definition Duration := Z.

Definition Second : Duration := 1000000000.

Definition minDuration : Duration := - 2 ^ 63.
Definition maxDuration : Duration := 2 ^ 63 - 1.

(** [Time.Sub] on two monotonic readings: the difference, saturated to the
    range of [Duration]. *)
Definition Sub (t u : Z) : Duration :=
  Z.max minDuration (Z.min maxDuration (t - u)).

(** [Duration.Seconds]: [float64(d / Second) + float64(d % Second) / 1e9]
    (Go's [/] and [%] truncate towards zero). *)
Definition Seconds (d : Duration) : Q :=
  (inject_Z (Z.quot d Second) + inject_Z (Z.rem d Second) / inject_Z Second)%Q.

(** The wall-clock side of a [time.Time]: the civil date and time in the
    process's location, with the zone offset in seconds east of UTC. *)
Record Civil := {
  year : nat; month : nat; day : nat;
  hour : nat; minute : nat; second : nat;
  offset : Z
}.

Definition digit (n : nat) : ascii := ascii_of_nat (48 + n mod 10).

Definition pad2 (n : nat) (k : string) : string :=
  String (digit (n / 10)) (String (digit n) k).

Definition pad4 (n : nat) (k : string) : string :=
  String (digit (n / 1000)) (String (digit (n / 100)) (pad2 n k)).

(** The zone of layout element [Z07:00]: [Z] for a zero offset, else the
    sign, hours and minutes of the offset in whole minutes. *)
Definition zone (off : Z) : string :=
  if off =? 0 then "Z"%string
  else
    let m := Z.quot off 60 in
    let a := Z.to_nat (Z.abs m) in
    String (if m <? 0 then "-"%char else "+"%char)
           (pad2 (a / 60) (String ":" (pad2 (a mod 60) EmptyString))).

(** [t.Format(time.RFC3339)], layout [2006-01-02T15:04:05Z07:00]. *)
Definition FormatRFC3339 (t : Civil) : string :=
  pad4 (year t) (String "-" (pad2 (month t) (String "-" (pad2 (day t)
    (String "T" (pad2 (hour t) (String ":" (pad2 (minute t) (String ":"
      (pad2 (second t) (zone (offset t)))))))))))).

(** The format of the file-name date, layout [2006-01-02]. *)
Definition FormatDate (t : Civil) : string :=
  pad4 (year t) (String "-" (pad2 (month t) (String "-" (pad2 (day t) EmptyString)))).

(** What [time.Now()] can return: a date of the common era with four-digit
    year and a zone offset below a day. *)
Definition valid (t : Civil) : Prop :=
  Z.of_nat (year t) < 10000 /\ (1 <= month t <= 12 /\ 1 <= day t <= 31 /\
   hour t < 24 /\ minute t < 60 /\ second t < 60)%nat /\
  - 86400 < offset t < 86400.

(** [t] with its zone offset cut to whole minutes, as the layout prints
    it. *)
Definition wholeMinutes (t : Civil) : Civil :=
  {| year := year t; month := month t; day := day t;
     hour := hour t; minute := minute t; second := second t;
     offset := 60 * Z.quot (offset t) 60 |}.

(** A reader of RFC 3339 timestamps ([date-time] of RFC 3339, section 5.6,
    without fraction): the inverse the health check's body is checked
    against. *)
Definition digitVal (c : ascii) : option nat :=
  let n := nat_of_ascii c in
  if (48 <=? n)%nat && (n <=? 57)%nat then Some (n - 48)%nat else None.

Definition read2 (s : string) : option (nat * string) :=
  match s with
  | String a (String b k) =>
      match digitVal a, digitVal b with
      | Some x, Some y => Some (10 * x + y, k)%nat
      | _, _ => None
      end
  | _ => None
  end.

Definition expect (c : ascii) (s : string) : option string :=
  match s with
  | String a k => if Ascii.eqb a c then Some k else None
  | EmptyString => None
  end.

Definition readZone (s : string) : option Z :=
  match s with
  | String "Z" EmptyString => Some 0
  | String sg k =>
      if Ascii.eqb sg "+" || Ascii.eqb sg "-" then
        '(h, k) ← read2 k;
        k ← expect ":" k;
        '(m, k) ← read2 k;
        match k with
        | EmptyString =>
            if (h <? 24)%nat && (m <? 60)%nat then
              let secs := Z.of_nat (60 * (60 * h + m)) in
              Some (if Ascii.eqb sg "-" then - secs else secs)
            else None
        | _ => None
        end
      else None
  | EmptyString => None
  end.

Definition ParseRFC3339 (s : string) : option Civil :=
  '(yh, k) ← read2 s;
  '(yl, k) ← read2 k;
  k ← expect "-" k;
  '(mo, k) ← read2 k;
  k ← expect "-" k;
  '(d, k) ← read2 k;
  k ← expect "T" k;
  '(h, k) ← read2 k;
  k ← expect ":" k;
  '(mi, k) ← read2 k;
  k ← expect ":" k;
  '(sec, k) ← read2 k;
  off ← readZone k;
  if (1 <=? mo)%nat && (mo <=? 12)%nat && (1 <=? d)%nat && (d <=? 31)%nat &&
     (h <? 24)%nat && (mi <? 60)%nat && (sec <? 60)%nat
  then Some {| year := 100 * yh + yl; month := mo; day := d;
               hour := h; minute := mi; second := sec; offset := off |}
  else None.

End Time.


(** ** packages strings, net/textproto and golang.org/x/net/http/httpguts *)

Module Strings.

Definition code (c : ascii) : N := N_of_ascii c.

(** [s[:n]] and [s[n:]]. *)
Fixpoint slice_to (n : nat) (s : string) : string :=
  match n, s with
  | S n, String c s => String c (slice_to n s)
  | _, _ => EmptyString
  end.

Fixpoint slice_from (n : nat) (s : string) : string :=
  match n, s with
  | S n, String _ s => slice_from n s
  | _, _ => s
  end.

(** [strings.IndexByte] and [strings.LastIndexByte]; [None] is Go's -1. *)
Fixpoint IndexByte (s : string) (c : ascii) : option nat :=
  match s with
  | EmptyString => None
  | String a s => if Ascii.eqb a c then Some 0%nat else S <$> IndexByte s c
  end.

Fixpoint LastIndexByte (s : string) (c : ascii) : option nat :=
  match s with
  | EmptyString => None
  | String a s =>
      match LastIndexByte s c with
      | Some i => Some (S i)
      | None => if Ascii.eqb a c then Some 0%nat else None
      end
  end.

(** [strings.Split(s, sep)] for a one-byte separator: the pieces of [s]
    between the separators, never an empty list. *)
Fixpoint Split (s : string) (sep : ascii) : list string :=
  match s with
  | EmptyString => [EmptyString]
  | String c s =>
      if Ascii.eqb c sep then EmptyString :: Split s sep
      else match Split s sep with
           | x :: xs => String c x :: xs
           | [] => [String c EmptyString]
           end
  end.

(** The part of [s] before the first [sep]; all of [s] when it has none. *)
Definition beforeByte (s : string) (sep : ascii) : string :=
  match IndexByte s sep with
  | Some i => slice_to i s
  | None => s
  end.

(** The UTF-8 encodings of the runes for which [unicode.IsSpace] holds. *)
Definition isSpaceRune (bs : list N) : bool :=
  match bs with
  | [c] => ((9 <=? c) && (c <=? 13) || (c =? 32))%N
  | [194; c] => ((c =? 133) || (c =? 160))%N
  | [225; 154; 128] => true
  | [226; 128; c] =>
      ((128 <=? c) && (c <=? 138) || (c =? 168) || (c =? 169) || (c =? 175))%N
  | [226; 129; 159] => true
  | [227; 128; 128] => true
  | _ => false
  end%N.

(** Drops the white-space runes at the head of [s]; with [back] set, [s] is
    a reversed string and the runes are read backwards. *)
Fixpoint trimRunes (back : bool) (s : string) : string :=
  let enc (bs : list ascii) := code <$> (if back then rev bs else bs) in
  match s with
  | String c0 r0 =>
      if isSpaceRune (enc [c0]) then trimRunes back r0 else
      match r0 with
      | String c1 r1 =>
          if isSpaceRune (enc [c0; c1]) then trimRunes back r1 else
          match r1 with
          | String c2 r2 =>
              if isSpaceRune (enc [c0; c1; c2]) then trimRunes back r2 else s
          | EmptyString => s
          end
      | EmptyString => s
      end
  | EmptyString => s
  end.

(** [strings.TrimSpace]: [s] without leading and trailing white space, as
    defined by Unicode. *)
Definition TrimSpace (s : string) : string :=
  String.rev (trimRunes true (String.rev (trimRunes false s))).

(** Drops the bytes satisfying [f] at the head of [s]. *)
Fixpoint trimLeftBytes (f : ascii -> bool) (s : string) : string :=
  match s with
  | String c r => if f c then trimLeftBytes f r else s
  | EmptyString => s
  end.

Definition trimBytes (f : ascii -> bool) (s : string) : string :=
  String.rev (trimLeftBytes f (String.rev (trimLeftBytes f s))).

(** [textproto.TrimString]: trims ASCII space, tab, CR and LF. *)
Definition isASCIISpace (c : ascii) : bool :=
  match code c with 32 | 9 | 10 | 13 => true | _ => false end%N.

Definition TrimString (s : string) : string := trimBytes isASCIISpace s.

(** [httpguts.trimOWS]: trims space and tab. *)
Definition isOWS (c : ascii) : bool :=
  match code c with 32 | 9 => true | _ => false end%N.

Definition trimOWS (s : string) : string := trimBytes isOWS s.

Definition isUpper (c : ascii) : bool := ((65 <=? code c) && (code c <=? 90))%N.
Definition isLower (c : ascii) : bool := ((97 <=? code c) && (code c <=? 122))%N.
Definition toLower (c : ascii) : ascii :=
  if isUpper c then ascii_of_N (code c + 32) else c.
Definition toUpper (c : ascii) : ascii :=
  if isLower c then ascii_of_N (code c - 32) else c.

(** [httpguts.tokenEqual]: equality of ASCII tokens up to case. *)
Fixpoint tokenEqual (t1 t2 : string) : bool :=
  match t1, t2 with
  | EmptyString, EmptyString => true
  | String a t1, String b t2 =>
      (code a <? 128)%N && Ascii.eqb (toLower a) (toLower b) && tokenEqual t1 t2
  | _, _ => false
  end.

(** [httpguts.headerValueContainsToken] and [HeaderValuesContainsToken]. *)
Definition headerValueContainsToken (v token : string) : bool :=
  existsb (fun part => tokenEqual (trimOWS part) token) (Split v ",").

Definition HeaderValuesContainsToken (values : list string) (token : string) : bool :=
  existsb (fun v => headerValueContainsToken v token) values.

(** [ascii.IsPrint]: every byte is a printable ASCII character. *)
Fixpoint IsPrint (s : string) : bool :=
  match s with
  | EmptyString => true
  | String c s => (32 <=? code c)%N && (code c <=? 126)%N && IsPrint s
  end.

Fixpoint allBytes (f : ascii -> bool) (s : string) : bool :=
  match s with
  | EmptyString => true
  | String c s => f c && allBytes f s
  end.

(** [strings.Join] *)
Fixpoint Join (elems : list string) (sep : string) : string :=
  match elems with
  | [] => EmptyString
  | [x] => x
  | x :: xs => x +:+ sep +:+ Join xs sep
  end.

End Strings.

(** ** package net *)

Module Net.

Import Strings.

Definition byteAt (s : string) (i : nat) : option ascii := String.get i s.

Definition has (s : string) (c : ascii) : bool :=
  match IndexByte s c with Some _ => true | None => false end.

(** [net.SplitHostPort]: the host and port of [host:port], [[host]:port];
    [inr why] is the [AddrError] it returns otherwise. *)
Definition SplitHostPort (hostport : string) : (string * string) + string :=
  let missingPort := "missing port in address"%string in
  let tooManyColons := "too many colons in address"%string in
  match LastIndexByte hostport ":" with
  | None => inr missingPort
  | Some i =>
      let bracketed :=
        match byteAt hostport 0 with Some c => Ascii.eqb c "[" | None => false end in
      let parsed : (string * nat * nat) + string :=
        if bracketed then
          match IndexByte hostport "]" with
          | None => inr "missing ']' in address"%string
          | Some e =>
              if (S e =? String.length hostport)%nat then inr missingPort
              else if (S e =? i)%nat then
                inl (slice_to (e - 1) (slice_from 1 hostport), 1%nat, S e)
              else
                match byteAt hostport (S e) with
                | Some c => if Ascii.eqb c ":" then inr tooManyColons else inr missingPort
                | None => inr missingPort
                end
          end
        else
          let host := slice_to i hostport in
          if has host ":" then inr tooManyColons else inl (host, 0%nat, 0%nat) in
      match parsed with
      | inr why => inr why
      | inl (host, j, k) =>
          if has (slice_from j hostport) "[" then inr "unexpected '[' in address"%string
          else if has (slice_from k hostport) "]" then inr "unexpected ']' in address"%string
          else inl (host, slice_from (S i) hostport)
      end
  end.

End Net.

(** ** net/http headers *)

Module Header.

Import Strings.

(** [textproto.validHeaderFieldByte]: the token characters of RFC 7230. *)
Definition validHeaderFieldByte (c : ascii) : bool :=
  isUpper c || isLower c || ((48 <=? code c) && (code c <=? 57))%N ||
  existsb (Ascii.eqb c) (list_ascii_of_string "!#$%&'*+-.^_`|~").

(** The rewriting loop of [textproto.canonicalMIMEHeaderKey]: upper case for
    the first letter and for a letter after a dash, lower case elsewhere. *)
Fixpoint canonBytes (upper : bool) (s : string) : string :=
  match s with
  | EmptyString => EmptyString
  | String c s =>
      let c :=
        if upper && isLower c then toUpper c
        else if negb upper && isUpper c then toLower c
        else c in
      String c (canonBytes (Ascii.eqb c "-") s)
  end.

(** [textproto.CanonicalMIMEHeaderKey]: a key with a byte that is not a
    token character is returned as it is. *)
Definition CanonicalMIMEHeaderKey (s : string) : string :=
  if allBytes validHeaderFieldByte s then canonBytes true s else s.

(** [type Header map[string][]string] *)
Abbreviation Header := (gmap string (list string)).

(** [func (h Header) Get(key string) string]: the first value of the
    canonical key, or the empty string. *)
Definition Get (h : Header) (key : string) : string :=
  match h !! CanonicalMIMEHeaderKey key with
  | Some (v :: _) => v
  | _ => EmptyString
  end.

(** [func (h Header) Set(key, value string)] *)
Definition Set_ (h : Header) (key value : string) : Header :=
  <[CanonicalMIMEHeaderKey key := [value]]> h.

(** [func (h Header) Del(key string)] *)
Definition Del (h : Header) (key : string) : Header :=
  delete (CanonicalMIMEHeaderKey key) h.

(** [h[key]]: the values stored under the key as written. *)
Definition values (h : Header) (key : string) : list string :=
  default [] (h !! key).

End Header.


(** ** float64 comparison on the rational model *)

Definition Qltb (x y : Q) : bool :=
  (Qnum x * Zpos (Qden y) <? Qnum y * Zpos (Qden x))%Z.

(** ** The per-IP token bucket limiter *)

Module Limiter.

(** [type bucket struct { tokens float64; last time.Time }] *)
Record bucket := Bucket { tokens : Q; last : Z }.

(** [type ipRateLimiter struct { mu; limit; rate; buckets }].  The mutex
    serialises the calls: a run of the limiter is the sequence of its calls
    in the order in which they take the lock. *)
Record ipRateLimiter := IPRateLimiter {
  limit : Q;
  rate : Q;
  buckets : gmap string bucket
}.

Definition with_buckets (rl : ipRateLimiter) (m : gmap string bucket) : ipRateLimiter :=
  {| limit := limit rl; rate := rate rl; buckets := m |}.

(** [func newIPRateLimiter(maxReq int, window time.Duration) *ipRateLimiter] *)
Definition newIPRateLimiter (maxReq : Z) (window : Time.Duration) : ipRateLimiter :=
  let window := if window <=? 0 then 10 * Time.Second else window in
  let limit := inject_Z maxReq in
  let rate := (limit / Time.Seconds window)%Q in
  {| limit := limit; rate := rate; buckets := ∅ |}.

(** The refill of [Allow] on a bucket that exists: the block guarded by
    [elapsed > 0]. *)
Definition refill (rl : ipRateLimiter) (now : Z) (b : bucket) : bucket :=
  let elapsed := Time.Seconds (Time.Sub now (last b)) in
  if Qltb 0 elapsed then
    let t := (tokens b + elapsed * rate rl)%Q in
    let t := if Qltb (limit rl) t then limit rl else t in
    {| tokens := t; last := now |}
  else b.

(** [func (rl *ipRateLimiter) Allow(ip string) bool], with the value that
    [time.Now()] returns at its first line as an argument.  The bucket is
    reached through the pointer stored in the map, so an assignment to
    [b.tokens] or [b.last] is an update of the map entry. *)
Definition Allow (now : Z) (ip : string) (rl : ipRateLimiter) : bool * ipRateLimiter :=
  match buckets rl !! ip with
  | None =>
      (true, with_buckets rl
               (<[ip := {| tokens := (limit rl - 1)%Q; last := now |}]> (buckets rl)))
  | Some b =>
      let b := refill rl now b in
      if Qltb (tokens b) 1 then
        (false, with_buckets rl (<[ip := b]> (buckets rl)))
      else
        (true, with_buckets rl
                 (<[ip := {| tokens := (tokens b - 1)%Q; last := last b |}]> (buckets rl)))
  end.

(** [var defaultIPLimiter = newIPRateLimiter(300, 10*time.Second)] *)
Definition defaultIPLimiter : ipRateLimiter :=
  newIPRateLimiter 300 (10 * Time.Second).

(** A run: the calls [(now, ip)] in lock order, their results and the
    limiter they leave. *)
Fixpoint run (rl : ipRateLimiter) (tr : list (Z * string)) : list bool * ipRateLimiter :=
  match tr with
  | [] => ([], rl)
  | (now, ip) :: tr =>
      let r := Allow now ip rl in
      let rs := run (snd r) tr in
      (fst r :: fst rs, snd rs)
  end.

Definition final (rl : ipRateLimiter) (tr : list (Z * string)) : ipRateLimiter :=
  snd (run rl tr).

(** The calls of a run made for [ip], and their results in order. *)
Definition calls_of (ip : string) (tr : list (Z * string)) : list (Z * string) :=
  List.filter (fun c => bool_decide (snd c = ip)) tr.

Fixpoint results_for (ip : string) (rl : ipRateLimiter) (tr : list (Z * string)) : list bool :=
  match tr with
  | [] => []
  | (now, ip') :: tr =>
      let r := Allow now ip' rl in
      if bool_decide (ip' = ip) then fst r :: results_for ip (snd r) tr
      else results_for ip (snd r) tr
  end.

(** A run without the calls made for [ip]. *)
Definition without (ip : string) (tr : list (Z * string)) : list (Z * string) :=
  List.filter (fun c => negb (bool_decide (snd c = ip))) tr.

(** The invariant of the buckets: a policy with room for one request and
    a refill that does not take tokens away, and every bucket within the
    bounds of the policy. *)
Definition policy_ok (rl : ipRateLimiter) : Prop :=
  (1 <= limit rl)%Q /\ (0 <= rate rl)%Q.

Definition bucket_ok (rl : ipRateLimiter) (b : bucket) : Prop :=
  (0 <= tokens b)%Q /\ (tokens b <= limit rl)%Q.

Definition buckets_ok (rl : ipRateLimiter) : Prop :=
  forall ip b, buckets rl !! ip = Some b -> bucket_ok rl b.

(** Two limiters that the calls for [ip] cannot tell apart: the same
    policy and the same bucket for [ip]. *)
Definition agree (ip : string) (rl rl' : ipRateLimiter) : Prop :=
  limit rl = limit rl' /\ rate rl = rate rl' /\ buckets rl !! ip = buckets rl' !! ip.

(** The instants less than the time of one refilled token (window over
    capacity, a thirtieth of a second under the default policy) after
    [t0]. *)
Definition near (t0 t : Z) : Prop := 30 * (t - t0) < 1000000000.

(** What holds of the bucket of an address under the default policy after
    [j] admitted calls, the first at [t0] and all of them near [t0]: the
    tokens are the capacity less the calls, up to the refill since [t0]. *)
Definition burst_inv (t0 j : Z) (b : bucket) : Prop :=
  (300 - inject_Z j <= tokens b)%Q /\
  (tokens b <= 300 - inject_Z j + (30 # 1000000000) * (inject_Z (last b) - inject_Z t0))%Q /\
  t0 <= last b /\ near t0 (last b).

Definition default_policy (rl : ipRateLimiter) : Prop :=
  limit rl = limit defaultIPLimiter /\ rate rl = rate defaultIPLimiter.

End Limiter.

Arguments Time.Seconds : simpl never.
Arguments Time.Sub : simpl never.
Arguments Qltb : simpl never.
Arguments Limiter.refill : simpl never.
Arguments Limiter.newIPRateLimiter : simpl never.
Arguments Limiter.defaultIPLimiter : simpl never.

(** ** Requests and responses *)

Module HTTP.

Import Header.

(** The fields of [url.URL] and [http.Request] that the program reads or
    writes.  The escaped path, the body and the trailers are not modelled. *)
Record URL := {
  Scheme : string;
  URLHost : string;
  Path : string;
  RawQuery : string
}.

Record Request := {
  Method : string;
  ReqURL : URL;
  Host : string;
  ReqHeader : Header;
  RemoteAddr : string
}.

(** What a handler writes to its [http.ResponseWriter]. *)
Record Response := {
  StatusCode : Z;
  RespHeader : Header;
  Body : string
}.

Definition StatusOK : Z := 200.
Definition StatusTooManyRequests : Z := 429.
Definition StatusBadGateway : Z := 502.

Definition with_header (req : Request) (h : Header) : Request :=
  {| Method := Method req; ReqURL := ReqURL req; Host := Host req;
     ReqHeader := h; RemoteAddr := RemoteAddr req |}.

(** [http.Error(w, msg, code)] on a fresh response. *)
Definition Error (msg : string) (code : Z) : Response :=
  {| StatusCode := code;
     RespHeader :=
       Set_ (Set_ (Del ∅ "Content-Length") "Content-Type" "text/plain; charset=utf-8")
            "X-Content-Type-Options" "nosniff";
     Body := msg +:+ String "010" EmptyString |}.

End HTTP.

(** ** The request forwarder: [newReverseProxy] *)

Module Proxy.

Import Strings Header HTTP.

(** [const target] and the value of [url.Parse(target)]. *)
Definition target : string := "https://translate.google.com".

Definition targetURL : URL :=
  {| Scheme := "https"; URLHost := "translate.google.com"; Path := ""; RawQuery := "" |}.

Definition hasSuffixSlash (s : string) : bool :=
  match String.rev s with String "/" _ => true | _ => false end.

Definition hasPrefixSlash (s : string) : bool :=
  match s with String "/" _ => true | _ => false end.

(** [httputil.singleJoiningSlash] *)
Definition singleJoiningSlash (a b : string) : string :=
  match hasSuffixSlash a, hasPrefixSlash b with
  | true, true => a +:+ slice_from 1 b
  | false, false => a +:+ "/" +:+ b
  | _, _ => a +:+ b
  end.

(** [httputil.rewriteRequestURL], the director that
    [httputil.NewSingleHostReverseProxy] installs. *)
Definition rewriteRequestURL (req : Request) (target : URL) : Request :=
  let u := ReqURL req in
  let q :=
    if String.eqb (RawQuery target) "" || String.eqb (RawQuery u) ""
    then RawQuery target +:+ RawQuery u
    else RawQuery target +:+ "&" +:+ RawQuery u in
  {| Method := Method req;
     ReqURL := {| Scheme := Scheme target; URLHost := URLHost target;
                  Path := singleJoiningSlash (Path target) (Path u);
                  RawQuery := q |};
     Host := Host req; ReqHeader := ReqHeader req; RemoteAddr := RemoteAddr req |}.

Definition originalDirector (req : Request) : Request :=
  rewriteRequestURL req targetURL.

(** The header names deleted by the director. *)
Definition strippedHeaders : list string :=
  ["X-Real-IP"; "X-Forwarded-For"; "X-Forwarded-Host"; "X-Forwarded-Proto";
   "Forwarded"; "Via"; "Proxy-Connection"]%string.

Definition browserUserAgent : string :=
  "Mozilla/5.0 (Windows NT 10.0; Win64; x64) " +:+
  "AppleWebKit/537.36 (KHTML, like Gecko) " +:+
  "Chrome/124.0.0.0 Safari/537.36".

Definition defaultAcceptLanguage : string := "zh-CN,zh;q=0.9,en;q=0.8".
Definition defaultAcceptEncoding : string := "gzip, deflate, br".

(** The edits that the director makes to the header: the deletions, the
    user agent, the two defaults. *)
Definition maskHeader (h : Header) : Header :=
  let h := foldl Del h strippedHeaders in
  let h := Set_ h "User-Agent" browserUserAgent in
  let h :=
    if String.eqb (Get h "Accept-Language") "" then
      Set_ h "Accept-Language" defaultAcceptLanguage
    else h in
  if String.eqb (Get h "Accept-Encoding") "" then
    Set_ h "Accept-Encoding" defaultAcceptEncoding
  else h.

(** [proxyRP.Director = func(req *http.Request) { ... }] *)
Definition Director (req : Request) : Request :=
  let req := originalDirector req in
  let u := ReqURL req in
  {| Method := Method req;
     ReqURL := {| Scheme := Scheme targetURL; URLHost := URLHost targetURL;
                  Path := Path u; RawQuery := RawQuery u |};
     Host := URLHost targetURL;
     ReqHeader := maskHeader (ReqHeader req);
     RemoteAddr := RemoteAddr req |}.

(** *** What [httputil.ReverseProxy.ServeHTTP] does around the director

    [ServeHTTP] clones the inbound request, runs the director on the clone,
    and then, for a proxy configured with [Director] (not [Rewrite]), removes
    the hop-by-hop headers, restores the upgrade headers, appends the client
    address to [X-Forwarded-For] and defaults [User-Agent], before it hands
    the clone to the transport. *)

Definition hopHeaders : list string :=
  ["Connection"; "Proxy-Connection"; "Keep-Alive"; "Proxy-Authenticate";
   "Proxy-Authorization"; "Te"; "Trailer"; "Transfer-Encoding"; "Upgrade"]%string.

(** The header names listed in the values of [Connection]. *)
Definition connectionTokens (h : Header) : list string :=
  List.filter (fun sf => negb (String.eqb sf ""))
    (TrimString <$> flat_map (fun f => Split f ",") (values h "Connection")).

(** [httputil.removeHopByHopHeaders] *)
Definition removeHopByHopHeaders (h : Header) : Header :=
  foldl Del (foldl Del h (connectionTokens h)) hopHeaders.

(** [httputil.upgradeType] *)
Definition upgradeType (h : Header) : string :=
  if HeaderValuesContainsToken (values h "Connection") "Upgrade"
  then Get h "Upgrade" else EmptyString.

(** The [X-Forwarded-For] step: the client address, after the prior values
    of the header if there are any, unless the key is present with a nil
    value. *)
Definition addForwardedFor (remoteAddr : string) (h : Header) : Header :=
  match Net.SplitHostPort remoteAddr with
  | inl (clientIP, _) =>
      match h !! "X-Forwarded-For"%string with
      | Some [] => h
      | Some prior => Set_ h "X-Forwarded-For" (Join prior ", " +:+ ", " +:+ clientIP)
      | None => Set_ h "X-Forwarded-For" clientIP
      end
  | inr _ => h
  end.

(** [Te: trailers] is kept for the backend when the client sent it. *)
Definition advertiseTrailers (inbound h : Header) : Header :=
  if HeaderValuesContainsToken (values inbound "Te") "trailers"
  then Set_ h "Te" "trailers" else h.

(** The upgrade headers are put back after the hop-by-hop removal. *)
Definition restoreUpgrade (reqUpType : string) (h : Header) : Header :=
  if negb (String.eqb reqUpType "")
  then Set_ (Set_ h "Connection" "Upgrade") "Upgrade" reqUpType else h.

(** A request without [User-Agent] gets an empty one, so that the transport
    does not add its own. *)
Definition defaultUserAgent (h : Header) : Header :=
  match h !! "User-Agent"%string with
  | None => Set_ h "User-Agent" ""
  | Some _ => h
  end.

(** The steps of [ServeHTTP] on the header of the clone, after the
    director. *)
Definition finishHeader (req : Request) (reqUpType : string) (h : Header) : Header :=
  defaultUserAgent
    (addForwardedFor (RemoteAddr req)
       (restoreUpgrade reqUpType
          (advertiseTrailers (ReqHeader req) (removeHopByHopHeaders h)))).

(** The request handed to [transport.RoundTrip]; [None] when [ServeHTTP]
    answers through the error handler without forwarding (an [Upgrade]
    protocol that is not printable). *)
Definition outbound (req : Request) : option Request :=
  let outreq := Director req in
  let reqUpType := upgradeType (ReqHeader outreq) in
  if negb (IsPrint reqUpType) then None
  else Some (with_header outreq (finishHeader req reqUpType (ReqHeader outreq))).

(** [proxyRP.ErrorHandler]: the reply to the client ([http.Error]); the
    line it logs is returned by [errorLine]. *)
Definition errorResponse : Response := Error "Upstream error" StatusBadGateway.

Definition errorLine (err : string) : string := "[ERROR] proxy error: " +:+ err.

(** [proxyRP.ServeHTTP]: the upstream is a function from the request it
    receives to its response, or to the error of the round trip.  The reply
    is the pair of the response and of the lines logged. *)
Definition ServeHTTP (upstream : Request -> Response + string) (req : Request)
  : Response * list string :=
  match outbound req with
  | None => (errorResponse, [errorLine "client tried to switch to invalid protocol"])
  | Some out =>
      match upstream out with
      | inl res => (res, [])
      | inr err => (errorResponse, [errorLine err])
      end
  end.

End Proxy.

(** ** The buffer pool: [byteBufferPool] *)

Module Pool.

(** A [[]byte]: [nil], or a window of [len] bytes at the start of a backing
    array, whose length is the capacity. *)
Inductive slice :=
| Nil
| Slice (backing : list N) (len : nat).

Definition len (b : slice) : nat :=
  match b with Nil => 0 | Slice _ n => n end.

Definition cap (b : slice) : nat :=
  match b with Nil => 0 | Slice a _ => length a end.

(** [make([]byte, n)] *)
Definition make (n : nat) : slice := Slice (repeat 0%N n) n.

(** [b[:0]] *)
Definition reslice0 (b : slice) : slice :=
  match b with Nil => Nil | Slice a _ => Slice a 0 end.

Definition bufferSize : nat := 32 * 1024.

(** [sync.Pool]: the constructor [New], when set, and the items put and
    not yet taken.  [Get] hands out any of the items or none of them; that
    choice is the argument [pick]. *)
Record syncPool := {
  New : option slice;
  items : list slice
}.

(** [sync.Pool.Get]: the picked item, removed from the pool; failing that
    the value of [New]; failing that nil. *)
Definition syncGet (pick : option nat) (p : syncPool) : option slice * syncPool :=
  match pick ≫= (fun i => (fun v => (i, v)) <$> items p !! i) with
  | Some (i, v) => (Some v, {| New := New p; items := delete i (items p) |})
  | None => (New p, p)
  end.

(** [sync.Pool.Put] *)
Definition syncPut (v : slice) (p : syncPool) : syncPool :=
  {| New := New p; items := v :: items p |}.

(** [proxyRP.BufferPool = &byteBufferPool{pool: sync.Pool{New: ...}}] *)
Definition newPool : syncPool :=
  {| New := Some (make bufferSize); items := [] |}.

(** [func (p *byteBufferPool) Get() []byte] *)
Definition Get (pick : option nat) (p : syncPool) : slice * syncPool :=
  match syncGet pick p with
  | (Some v, p) => (v, p)
  | (None, p) => (make bufferSize, p)
  end.

(** [func (p *byteBufferPool) Put(b []byte)] *)
Definition Put (b : slice) (p : syncPool) : syncPool :=
  match b with
  | Nil => p
  | _ => syncPut (reslice0 b) p
  end.

(** [httputil.ReverseProxy.copyBuffer] starts by replacing an empty buffer
    with a new one of 32 KiB; the boolean tells whether it had to. *)
Definition copyBufferStart (buf : slice) : slice * bool :=
  if (len buf =? 0)%nat then (make bufferSize, true) else (buf, false).

(** [httputil.ReverseProxy.copyResponse]: borrow a buffer, copy with it,
    give back the buffer that was borrowed.  The result is the pool, the
    buffer the copy works with and whether it was allocated for the copy. *)
Definition copyResponse (pick : option nat) (p : syncPool) : syncPool * slice * bool :=
  let '(buf, p) := Get pick p in
  let '(used, fresh) := copyBufferStart buf in
  (Put buf p, used, fresh).

End Pool.

(** ** The day-rotating log writer: [dailyFileWriter] *)

Module LogSink.

(** The operating system as the writer sees it: which directory creations,
    opens and writes fail and with which error, the contents of the files,
    the open handles and what was written to standard output. *)
Record World := {
  mkdirErr : string -> option string;
  openErr : string -> option string;
  writeErr : string -> option string;
  stdoutErr : option string;
  files : gmap string string;
  handles : list string;
  stdout : string
}.

(** [os.MkdirAll(dir, 0755)] *)
Definition MkdirAll (dir : string) (os : World) : option string := mkdirErr os dir.

(** [os.OpenFile(path, O_APPEND|O_CREATE|O_WRONLY, 0644)]: the handle is
    the path; the file is created empty when it does not exist. *)
Definition OpenFile (path : string) (os : World) : (string + string) * World :=
  match openErr os path with
  | Some err => (inr err, os)
  | None =>
      (inl path,
       {| mkdirErr := mkdirErr os; openErr := openErr os; writeErr := writeErr os;
          stdoutErr := stdoutErr os;
          files := <[path := default EmptyString (files os !! path)]> (files os);
          handles := path :: handles os; stdout := stdout os |})
  end.

(** [f.Close()], its error dropped. *)
Definition Close (f : string) (os : World) : World :=
  {| mkdirErr := mkdirErr os; openErr := openErr os; writeErr := writeErr os;
     stdoutErr := stdoutErr os; files := files os;
     handles := List.filter (fun h => negb (String.eqb h f)) (handles os);
     stdout := stdout os |}.

(** [f.Write(p)] on a file opened for appending: the number of bytes
    written and the error. *)
Definition FileWrite (f : string) (p : string) (os : World) : (Z * option string) * World :=
  match writeErr os f with
  | Some err => ((0, Some err), os)
  | None =>
      ((Z.of_nat (String.length p), None),
       {| mkdirErr := mkdirErr os; openErr := openErr os; writeErr := writeErr os;
          stdoutErr := stdoutErr os;
          files := <[f := default EmptyString (files os !! f) +:+ p]> (files os);
          handles := handles os; stdout := stdout os |})
  end.

(** [os.Stdout.Write(p)] *)
Definition StdoutWrite (p : string) (os : World) : (Z * option string) * World :=
  match stdoutErr os with
  | Some err => ((0, Some err), os)
  | None =>
      ((Z.of_nat (String.length p), None),
       {| mkdirErr := mkdirErr os; openErr := openErr os; writeErr := writeErr os;
          stdoutErr := stdoutErr os; files := files os;
          handles := handles os; stdout := stdout os +:+ p |})
  end.

(** [type dailyFileWriter struct { mu; dir; prefix; currentDate; file }];
    [file] is [None] for a nil [*os.File]. *)
Record dailyFileWriter := {
  dir : string;
  prefix : string;
  currentDate : string;
  file : option string
}.

(** [func newDailyFileWriter(dir, prefix string) *dailyFileWriter] *)
Definition newDailyFileWriter (dir prefix : string) : dailyFileWriter :=
  {| dir := dir; prefix := prefix; currentDate := EmptyString; file := None |}.

(** [os.PathSeparator] of the platform the image is built for. *)
Definition PathSeparator : string := "/".

(** The path of the file of a day: [dir/prefix-date.log]. *)
Definition logPath (w : dailyFileWriter) (date : string) : string :=
  let filename := prefix w +:+ "-" +:+ date +:+ ".log" in
  dir w +:+ PathSeparator +:+ filename.

(** [func (w *dailyFileWriter) rotate(date string) error] *)
Definition rotate (date : string) (w : dailyFileWriter) (os : World)
  : option string * dailyFileWriter * World :=
  match MkdirAll (dir w) os with
  | Some err => (Some err, w, os)
  | None =>
      match OpenFile (logPath w date) os with
      | (inr err, os) => (Some err, w, os)
      | (inl f, os) =>
          let os := match file w with Some old => Close old os | None => os end in
          (None, {| dir := dir w; prefix := prefix w; currentDate := date; file := Some f |}, os)
      end
  end.

(** [func (w *dailyFileWriter) Write(p []byte) (int, error)], with the
    value of [time.Now()] as an argument.  A write through a nil [*os.File]
    returns [os.ErrInvalid]. *)
Definition Write (now : Time.Civil) (p : string) (w : dailyFileWriter) (os : World)
  : (Z * option string) * dailyFileWriter * World :=
  let today := Time.FormatDate now in
  let write (w : dailyFileWriter) (os : World) :=
    match file w with
    | Some f => let '(r, os) := FileWrite f p os in (r, w, os)
    | None => ((0, Some "invalid argument"%string), w, os)
    end in
  if bool_decide (file w = None) || negb (String.eqb (currentDate w) today) then
    match rotate today w os with
    | (Some _, w, os) => let '(r, os) := StdoutWrite p os in (r, w, os)
    | (None, w, os) => write w os
    end
  else write w os.

End LogSink.

(** ** The access-log channel and the middleware chain *)

Module Server.

Import Strings Header HTTP Limiter.

(** [chan string] with a buffer: the pending entries, oldest first. *)
Record Chan := {
  buf : list string;
  capacity : Z
}.

(** [make(chan string, 10000)] *)
Definition makeChan (n : Z) : Chan := {| buf := []; capacity := n |}.

(** [select { case ch <- msg: default: }] when no receiver is waiting: the
    send goes through if the buffer has room, else the default case runs. *)
Definition trySend (ch : Chan) (msg : string) : Chan * bool :=
  if Z.of_nat (length (buf ch)) <? capacity ch
  then ({| buf := buf ch ++ [msg]; capacity := capacity ch |}, true)
  else (ch, false).

(** [msg := <-ch] of the relay goroutine, when an entry is pending. *)
Definition receive (ch : Chan) : option (string * Chan) :=
  match buf ch with
  | msg :: rest => Some (msg, {| buf := rest; capacity := capacity ch |})
  | [] => None
  end.

(** What a request finds: the readings of the clock and the upstream. *)
Record Env := {
  now : Z;
  wall : Time.Civil;
  upstream : Request -> Response + string
}.

(** The package-level state: [defaultIPLimiter], [accessLogCh] ([None] for
    a nil channel) and the lines given to the standard logger. *)
Record State := {
  limiter : ipRateLimiter;
  accessLogCh : option Chan;
  errorLog : list string
}.

(** [http.Handler]: [ServeHTTP(w, r)] as a function to the response written
    and the state left. *)
Definition Handler := Request -> Env -> State -> Response * State.

(** [func clientIP(r *http.Request) string] *)
Definition clientIP (r : Request) : string :=
  let xff := Get (ReqHeader r) "X-Forwarded-For" in
  if negb (String.eqb xff "") then
    let parts := Split xff "," in
    TrimSpace (hd EmptyString parts)
  else
    let xr := Get (ReqHeader r) "X-Real-IP" in
    if negb (String.eqb xr "") then TrimSpace xr
    else
      match Net.SplitHostPort (RemoteAddr r) with
      | inr _ => RemoteAddr r
      | inl (host, _) => host
      end.

Definition plainText (code : Z) (body : string) : Response :=
  {| StatusCode := code;
     RespHeader := Set_ ∅ "Content-Type" "text/plain; charset=utf-8";
     Body := body |}.

(** [func rateLimitMiddleware(next http.Handler) http.Handler] *)
Definition rateLimitMiddleware (next : Handler) : Handler :=
  fun r env st =>
    let ip := clientIP r in
    let '(ok, rl) := Allow (now env) ip (limiter st) in
    let st := {| limiter := rl; accessLogCh := accessLogCh st; errorLog := errorLog st |} in
    if negb ok then
      (plainText StatusTooManyRequests ("Too Many Requests" +:+ String "010" EmptyString), st)
    else next r env st.

Section AccessLog.

(** The [%q] verb of [fmt.Sprintf] ([strconv.Quote]). *)
Variable Quote : string -> string.

Definition accessLine (ip ua : string) : string :=
  "[INFO] access: ip=" +:+ ip +:+ " ua=" +:+ Quote ua.

(** [func loggingMiddleware(next http.Handler) http.Handler] *)
Definition loggingMiddleware (next : Handler) : Handler :=
  fun r env st =>
    let '(res, st) := next r env st in
    let ip := clientIP r in
    let ua := Get (ReqHeader r) "User-Agent" in
    match accessLogCh st with
    | Some ch =>
        let msg := accessLine ip ua in
        (res, {| limiter := limiter st; accessLogCh := Some (fst (trySend ch msg));
                 errorLog := errorLog st |})
    | None => (res, st)
    end.

(** The handler of [/healthz]. *)
Definition healthz : Handler :=
  fun r env st =>
    (plainText StatusOK ("ok " +:+ Time.FormatRFC3339 (wall env)), st).

(** The handler of [/]: [proxyRP.ServeHTTP(w, r)]. *)
Definition proxy : Handler :=
  fun r env st =>
    let '(res, lines) := Proxy.ServeHTTP (upstream env) r in
    (res, {| limiter := limiter st; accessLogCh := accessLogCh st;
             errorLog := errorLog st ++ lines |}).

(** The [http.ServeMux] of [main] with its two patterns: [/healthz] matches
    that path alone, [/] matches every other path.  (The redirect that the
    mux sends for a path that is not in canonical form is not modelled.) *)
Definition mux : Handler :=
  fun r env st =>
    if String.eqb (Path (ReqURL r)) "/healthz" then healthz r env st
    else proxy r env st.

(** [server.Handler = loggingMiddleware(rateLimitMiddleware(mux))] *)
Definition handler : Handler := loggingMiddleware (rateLimitMiddleware mux).

(** The state after [init] and the package-level initialisers. *)
Definition initial : State :=
  {| limiter := defaultIPLimiter; accessLogCh := Some (makeChan 10000); errorLog := [] |}.

(** The requests served one after the other. *)
Fixpoint serve (st : State) (reqs : list (Request * Env)) : list Response * State :=
  match reqs with
  | [] => ([], st)
  | (r, env) :: reqs =>
      let a := handler r env st in
      let rest := serve (snd a) reqs in
      (fst a :: fst rest, snd rest)
  end.

End AccessLog.

(** [strconv.Quote] on a string of printable ASCII characters without
    double quote and backslash: the string between double quotes. *)
Definition quotePlain (s : string) : string :=
  String "034" (s +:+ String "034" EmptyString).

End Server.

(** ** Measures of a run *)


(** ** Plain tokens *)

(** The bytes of an address as a client writes it: printable ASCII other
    than the space and the comma. *)
Definition plainByte (c : ascii) : bool :=
  (33 <=? Strings.code c)%N && (Strings.code c <=? 126)%N && negb (Ascii.eqb c ",").

(** [Strings.isSpaceRune] by comparisons of bytes. *)
Definition spaceRune (bs : list N) : bool :=
  match bs with
  | [c] => ((9 <=? c) && (c <=? 13) || (c =? 32))%N
  | [a; c] => ((a =? 194) && ((c =? 133) || (c =? 160)))%N
  | [a; b; c] =>
      ((a =? 225) && (b =? 154) && (c =? 128) ||
       (a =? 226) && (b =? 128) &&
         ((128 <=? c) && (c <=? 138) || (c =? 168) || (c =? 169) || (c =? 175)) ||
       (a =? 226) && (b =? 129) && (c =? 159) ||
       (a =? 227) && (b =? 128) && (c =? 128))%N
  | _ => false
  end.

(** ** The limiter inside the server *)

(** The call of [Allow] that the server makes for a request. *)
Definition limiterCall (q : HTTP.Request * Server.Env) : Z * string :=
  (Server.now (snd q), Server.clientIP (fst q)).

(** ** Runs of the log writer *)

Module LogRuns.

Import LogSink.

(** The writes [(now, p)] made one after the other through one writer. *)
Fixpoint writes (l : list (Time.Civil * string)) (w : dailyFileWriter) (os : World)
  : list (Z * option string) * dailyFileWriter * World :=
  match l with
  | [] => ([], w, os)
  | (now, p) :: l =>
      let '(r, w, os) := Write now p w os in
      let '(rs, w, os) := writes l w os in
      (r :: rs, w, os)
  end.

(** An operating system on which no directory creation, open or write of a
    file fails. *)
Definition healthy (os : World) : Prop :=
  (forall d, mkdirErr os d = None) /\
  (forall f, openErr os f = None) /\
  (forall f, writeErr os f = None).

(** The open file of the writer is the one named after its current date. *)
Definition named (w : dailyFileWriter) : Prop :=
  forall f, file w = Some f -> f = logPath w (currentDate w).

(** The bytes that the writes of [l] address to the file at [path], in
    order. *)
Fixpoint entries (w : dailyFileWriter) (path : string) (l : list (Time.Civil * string)) : string :=
  match l with
  | [] => EmptyString
  | (now, p) :: l =>
      if String.eqb (logPath w (Time.FormatDate now)) path
      then p +:+ entries w path l else entries w path l
  end.

(** The bytes written on the day [date], in order. *)
Fixpoint entriesOn (date : string) (l : list (Time.Civil * string)) : string :=
  match l with
  | [] => EmptyString
  | (now, p) :: l =>
      if String.eqb (Time.FormatDate now) date
      then p +:+ entriesOn date l else entriesOn date l
  end.

(** The contents of the file at [path], empty when there is none. *)
Definition contents (os : World) (path : string) : string :=
  default EmptyString (files os !! path).

(** The oracles of the operating system do not change. *)
Definition same_oracles (os os' : World) : Prop :=
  mkdirErr os' = mkdirErr os /\ openErr os' = openErr os /\
  writeErr os' = writeErr os /\ stdoutErr os' = stdoutErr os.

(** The handles that the writer holds open. *)
Definition held (w : dailyFileWriter) : list string :=
  match file w with Some f => [f] | None => [] end.

End LogRuns.

(** ** Runs of the buffer pool *)

Module PoolRuns.

Import Pool.

(** A buffer as [Put] stores it: cut to length zero, with the capacity of
    32 KiB that [New] gave it. *)
Definition recycled (b : slice) : Prop := len b = 0%nat /\ cap b = bufferSize.

(** The pool of the proxy, with nothing but recycled buffers in it. *)
Definition pool_ok (p : syncPool) : Prop :=
  New p = Some (make bufferSize) /\ Forall recycled (items p).

(** The body copies of the proxy one after the other, each with the choice
    that [sync.Pool] makes: for every copy the buffer borrowed from the
    pool, the buffer the copy works with, and whether [copyBuffer] allocated
    the latter. *)
Fixpoint copies (picks : list (option nat)) (p : syncPool)
  : list (slice * slice * bool) * syncPool :=
  match picks with
  | [] => ([], p)
  | pick :: picks =>
      let borrowed := fst (Get pick p) in
      let '(p, used, fresh) := copyResponse pick p in
      let '(rest, p) := copies picks p in
      ((borrowed, used, fresh) :: rest, p)
  end.

End PoolRuns.

(** ** The access-log relay *)

Module Relay.

Import LogSink Server.

(** The header that a [log.Logger] with the flags [LstdFlags] puts before a
    message: layout [2006/01/02 15:04:05 ]. *)
Definition stdHeader (t : Time.Civil) : string :=
  Time.pad4 (Time.year t) (String "/" (Time.pad2 (Time.month t) (String "/"
    (Time.pad2 (Time.day t) (String " " (Time.pad2 (Time.hour t) (String ":"
      (Time.pad2 (Time.minute t) (String ":" (Time.pad2 (Time.second t)
        (String " " EmptyString))))))))))).

(** The line that [accessLogger.Println(msg)] hands to its writer in one
    call of [Write]. *)
Definition line (t : Time.Civil) (msg : string) : string :=
  stdHeader t +:+ msg +:+ String "010" EmptyString.

(** [accessLogger.Println(msg)]: the logger reads the clock for the header
    ([t]), and the writer reads it again for the day ([now]). *)
Definition Println (t now : Time.Civil) (msg : string) (w : dailyFileWriter) (os : World)
  : dailyFileWriter * World :=
  let '(_, w, os) := Write now (line t msg) w os in (w, os).

(** The goroutine of [setupLogging],
    [for msg := range accessLogCh { accessLogger.Println(msg) }], run for as
    many entries as there are clock readings, or until the queue is empty. *)
Fixpoint relay (clock : list (Time.Civil * Time.Civil)) (ch : Chan)
    (w : dailyFileWriter) (os : World) : Chan * dailyFileWriter * World :=
  match clock with
  | [] => (ch, w, os)
  | (t, now) :: clock =>
      match receive ch with
      | None => (ch, w, os)
      | Some (msg, ch) =>
          let '(w, os) := Println t now msg w os in
          relay clock ch w os
      end
  end.

(** The writes that the relay makes for the entries [msgs] under the clock
    readings [clock]. *)
Fixpoint relayWrites (clock : list (Time.Civil * Time.Civil)) (msgs : list string)
  : list (Time.Civil * string) :=
  match clock, msgs with
  | (t, now) :: clock, msg :: msgs => (now, line t msg) :: relayWrites clock msgs
  | _, _ => []
  end.

End Relay.

(** * Part II: the properties *)

(** ** Durations and comparisons *)

Lemma Qltb_lt x y : Qltb x y = true <-> (x < y)%Q.
Proof. unfold Qltb, Qlt. apply Z.ltb_lt. Qed.

Lemma Qltb_ge x y : Qltb x y = false <-> (y <= x)%Q.
Proof. unfold Qltb, Qle. rewrite Z.ltb_ge. reflexivity. Qed.

Lemma Seconds_eq (d : Time.Duration) :
  (Time.Seconds d == inject_Z d / inject_Z Time.Second)%Q.
Proof.
  unfold Time.Seconds.
  rewrite (Z.quot_rem' d Time.Second) at 3.
  rewrite inject_Z_plus, inject_Z_mult.
  field. discriminate.
Qed.

Lemma Seconds_pos (d : Time.Duration) : (0 < Time.Seconds d)%Q <-> 0 < d.
Proof. rewrite Seconds_eq. unfold Qdiv, Qlt. simpl. lia. Qed.

Lemma Sub_pos (t u : Z) : 0 < Time.Sub t u <-> u < t.
Proof. unfold Time.Sub, Time.minDuration, Time.maxDuration. lia. Qed.

Lemma Sub_pos_le (t u : Z) : 0 < Time.Sub t u -> Time.Sub t u <= t - u.
Proof. unfold Time.Sub, Time.minDuration, Time.maxDuration. lia. Qed.

(** ** The limiter *)

(** Reduces the projections of pairs, buckets and limiters, and nothing
    else. *)
Ltac proj :=
  cbn [fst snd Limiter.limit Limiter.rate Limiter.buckets Limiter.with_buckets
       Limiter.tokens Limiter.last] in *.

Section LimiterFacts.

Import Limiter.

Implicit Types (rl : ipRateLimiter) (b : bucket) (ip : string) (tr : list (Z * string)).

Lemma Allow_limit now ip rl : limit (snd (Allow now ip rl)) = limit rl.
Proof.
  unfold Allow. destruct (buckets rl !! ip) as [b|]; [|reflexivity].
  destruct (Qltb _ 1); reflexivity.
Qed.

Lemma Allow_rate now ip rl : rate (snd (Allow now ip rl)) = rate rl.
Proof.
  unfold Allow. destruct (buckets rl !! ip) as [b|]; [|reflexivity].
  destruct (Qltb _ 1); reflexivity.
Qed.

(** A call for one address leaves the bucket of every other address as it
    is. *)
Lemma Allow_other now ip ip' rl :
  ip ≠ ip' -> buckets (snd (Allow now ip rl)) !! ip' = buckets rl !! ip'.
Proof.
  intros Hne. unfold Allow. destruct (buckets rl !! ip) as [b|].
  - destruct (Qltb _ 1); proj; apply lookup_insert_ne, Hne.
  - proj. apply lookup_insert_ne, Hne.
Qed.

(** The first call for an address. *)
Lemma Allow_fresh now ip rl :
  buckets rl !! ip = None ->
  fst (Allow now ip rl) = true /\
  buckets (snd (Allow now ip rl)) !! ip =
    Some {| tokens := (limit rl - 1)%Q; last := now |}.
Proof.
  intros H. unfold Allow. rewrite H. proj. split; [reflexivity|apply lookup_insert_eq].
Qed.

(** A later call: the bucket is refilled, then debited if it holds a
    token. *)
Lemma Allow_seen now ip rl b :
  buckets rl !! ip = Some b ->
  if Qltb (tokens (refill rl now b)) 1 then
    fst (Allow now ip rl) = false /\
    buckets (snd (Allow now ip rl)) !! ip = Some (refill rl now b)
  else
    fst (Allow now ip rl) = true /\
    buckets (snd (Allow now ip rl)) !! ip =
      Some {| tokens := (tokens (refill rl now b) - 1)%Q; last := last (refill rl now b) |}.
Proof.
  intros H. unfold Allow. rewrite H.
  destruct (Qltb _ 1); proj; (split; [reflexivity|apply lookup_insert_eq]).
Qed.

Lemma final_app rl tr tr' : final rl (tr ++ tr') = final (final rl tr) tr'.
Proof.
  revert rl. induction tr as [|[now ip] tr IH]; intros rl; [done|].
  unfold final in *. cbn [run snd]. apply IH.
Qed.

Lemma final_cons rl now ip tr :
  final rl ((now, ip) :: tr) = final (snd (Allow now ip rl)) tr.
Proof. done. Qed.

Lemma results_for_app ip rl tr tr' :
  results_for ip rl (tr ++ tr') =
  results_for ip rl tr ++ results_for ip (final rl tr) tr'.
Proof.
  revert rl. induction tr as [|[now ip'] tr IH]; intros rl; [reflexivity|].
  cbn [app results_for]. rewrite final_cons.
  case_bool_decide; cbn [app]; by rewrite IH.
Qed.

Lemma results_for_length ip rl tr :
  length (results_for ip rl tr) = length (calls_of ip tr).
Proof.
  revert rl. induction tr as [|[now ip'] tr IH]; intros rl; [reflexivity|].
  unfold calls_of in *. cbn [results_for List.filter snd].
  case_bool_decide; cbn [length]; by rewrite IH.
Qed.

Lemma final_limit rl tr : limit (final rl tr) = limit rl.
Proof.
  revert rl. induction tr as [|[now ip] tr IH]; intros rl; [done|].
  rewrite final_cons, IH. apply Allow_limit.
Qed.

Lemma final_rate rl tr : rate (final rl tr) = rate rl.
Proof.
  revert rl. induction tr as [|[now ip] tr IH]; intros rl; [done|].
  rewrite final_cons, IH. apply Allow_rate.
Qed.

(** *** The bounds on the tokens *)

Lemma refill_ok rl now b :
  policy_ok rl -> bucket_ok rl b -> bucket_ok rl (refill rl now b).
Proof.
  intros [Hl Hr] [H0 H1]. unfold refill.
  destruct (Qltb 0 _) eqn:He; [|done].
  apply Qltb_lt in He.
  assert (0 <= Time.Seconds (Time.Sub now (last b)) * rate rl)%Q as Hadd.
  { apply Qmult_le_0_compat; [by apply Qlt_le_weak|done]. }
  unfold bucket_ok. proj.
  destruct (Qltb (limit rl) _) eqn:Hc.
  - split; lra.
  - apply Qltb_ge in Hc. split; lra.
Qed.

Lemma Allow_ok now ip rl :
  policy_ok rl -> buckets_ok rl -> buckets_ok (snd (Allow now ip rl)).
Proof.
  intros Hp Hok ip' b' Hb'. unfold bucket_ok. rewrite Allow_limit.
  destruct (decide (ip = ip')) as [<-|Hne].
  - destruct (buckets rl !! ip) as [b|] eqn:Hb.
    + pose proof (Allow_seen now ip rl b Hb) as Hs.
      destruct (refill_ok rl now b Hp (Hok _ _ Hb)) as [H0 H1].
      destruct (Qltb _ 1) eqn:Hlt; destruct Hs as [_ Hs];
        rewrite Hs in Hb'; injection Hb' as <-; proj.
      * done.
      * apply Qltb_ge in Hlt. split; lra.
    + destruct (Allow_fresh now ip rl Hb) as [_ Hs].
      rewrite Hs in Hb'. injection Hb' as <-. proj.
      destruct Hp as [Hl _]. split; lra.
  - rewrite Allow_other in Hb' by done. by apply (Hok ip').
Qed.

Lemma Allow_policy now ip rl : policy_ok rl -> policy_ok (snd (Allow now ip rl)).
Proof. unfold policy_ok. by rewrite Allow_limit, Allow_rate. Qed.

Lemma final_ok rl tr : policy_ok rl -> buckets_ok rl -> buckets_ok (final rl tr).
Proof.
  revert rl. induction tr as [|[now ip] tr IH]; intros rl Hp Hok; [done|].
  rewrite final_cons. apply IH; [by apply Allow_policy|by apply Allow_ok].
Qed.

Lemma newIPRateLimiter_policy maxReq window :
  1 <= maxReq -> policy_ok (newIPRateLimiter maxReq window).
Proof.
  intros H. unfold policy_ok, newIPRateLimiter. proj.
  set (w := if window <=? 0 then _ else _).
  assert (0 < w) as Hw.
  { subst w. destruct (Z.leb_spec window 0); [done|lia]. }
  apply (proj2 (Seconds_pos _)) in Hw.
  assert (1 <= inject_Z maxReq)%Q as H1.
  { change 1%Q with (inject_Z 1). by rewrite <- Zle_Qle. }
  split; [done|].
  apply Qle_shift_div_l; [done|]. lra.
Qed.

Lemma newIPRateLimiter_empty maxReq window :
  buckets_ok (newIPRateLimiter maxReq window).
Proof. intros ip b. unfold newIPRateLimiter. proj. by rewrite lookup_empty. Qed.

End LimiterFacts.

Section Independence.

Import Limiter.

Implicit Types (rl : ipRateLimiter) (b : bucket) (ip : string) (tr : list (Z * string)).

Lemma agree_refl ip rl : agree ip rl rl.
Proof. done. Qed.

Lemma Allow_agree_other now ip ip' rl rl' :
  ip' ≠ ip -> agree ip rl rl' -> agree ip (snd (Allow now ip' rl)) rl'.
Proof.
  intros Hne (Hl & Hr & Hb). unfold agree.
  by rewrite Allow_limit, Allow_rate, Allow_other.
Qed.

Lemma agree_sym ip rl rl' : agree ip rl rl' -> agree ip rl' rl.
Proof. intros (Hl & Hr & Hb). by repeat split. Qed.

Lemma Allow_agree now ip rl rl' :
  agree ip rl rl' ->
  fst (Allow now ip rl) = fst (Allow now ip rl') /\
  agree ip (snd (Allow now ip rl)) (snd (Allow now ip rl')).
Proof.
  intros (Hl & Hr & Hb). unfold agree.
  rewrite !Allow_limit, !Allow_rate.
  destruct (buckets rl !! ip) as [b|] eqn:H.
  - symmetry in Hb.
    pose proof (Allow_seen now ip rl b H) as H1.
    pose proof (Allow_seen now ip rl' b Hb) as H2.
    assert (refill rl now b = refill rl' now b) as Hre.
    { unfold refill. by rewrite Hl, Hr. }
    rewrite <- Hre in H2.
    destruct (Qltb _ 1); destruct H1 as [-> ->]; destruct H2 as [-> ->]; done.
  - symmetry in Hb.
    destruct (Allow_fresh now ip rl H) as [-> ->].
    destruct (Allow_fresh now ip rl' Hb) as [-> ->].
    by rewrite Hl.
Qed.

Lemma without_cons_eq ip now tr : without ip ((now, ip) :: tr) = without ip tr.
Proof. unfold without. cbn [List.filter snd]. by rewrite bool_decide_eq_true_2. Qed.

Lemma without_cons_ne ip ip' now tr :
  ip' ≠ ip -> without ip ((now, ip') :: tr) = (now, ip') :: without ip tr.
Proof. intros H. unfold without. cbn [List.filter snd]. by rewrite bool_decide_eq_false_2. Qed.

Lemma results_for_cons_eq ip now rl tr :
  results_for ip rl ((now, ip) :: tr) =
  fst (Allow now ip rl) :: results_for ip (snd (Allow now ip rl)) tr.
Proof. cbn [results_for]. by rewrite bool_decide_eq_true_2. Qed.

Lemma results_for_cons_ne ip ip' now rl tr :
  ip' ≠ ip ->
  results_for ip rl ((now, ip') :: tr) = results_for ip (snd (Allow now ip' rl)) tr.
Proof. intros H. cbn [results_for]. by rewrite bool_decide_eq_false_2. Qed.

Lemma run_agree ip1 ip2 tr rl rl' :
  ip1 ≠ ip2 -> agree ip2 rl rl' ->
  results_for ip2 rl tr = results_for ip2 rl' (without ip1 tr) /\
  agree ip2 (final rl tr) (final rl' (without ip1 tr)).
Proof.
  intros Hne. revert rl rl'.
  induction tr as [|[now ip] tr IH]; intros rl rl' Hag; [done|].
  rewrite final_cons.
  destruct (decide (ip = ip1)) as [->|Hip1].
  - rewrite without_cons_eq, results_for_cons_ne by done.
    apply IH. by apply Allow_agree_other.
  - rewrite without_cons_ne, final_cons by done.
    destruct (decide (ip = ip2)) as [->|Hip2].
    + rewrite !results_for_cons_eq.
      destruct (Allow_agree now ip2 rl rl' Hag) as [-> Hag'].
      destruct (IH _ _ Hag') as [-> ?]. done.
    + rewrite !results_for_cons_ne by done.
      apply IH. apply Allow_agree_other; [done|].
      apply agree_sym, Allow_agree_other; [done|]. by apply agree_sym.
Qed.

End Independence.

Import Limiter.

(** C2: under a policy built by [newIPRateLimiter] with a capacity of at
    least one request, after every sequence of [Allow] calls every bucket in
    the map holds a number of tokens between 0 and the capacity. *)
Theorem C2_tokens_within_capacity (maxReq : Z) (window : Time.Duration)
    (tr : list (Z * string)) (ip : string) (b : bucket) :
  1 <= maxReq ->
  buckets (final (newIPRateLimiter maxReq window) tr) !! ip = Some b ->
  (0 <= tokens b)%Q /\ (tokens b <= inject_Z maxReq)%Q.
Proof.
  intros Hm Hb.
  pose proof (final_ok (newIPRateLimiter maxReq window) tr
                (newIPRateLimiter_policy maxReq window Hm)
                (newIPRateLimiter_empty maxReq window) ip b Hb) as [H0 H1].
  rewrite final_limit in H1. done.
Qed.

Lemma C2_tokens_within_capacity_witness :
  exists b,
    buckets (final defaultIPLimiter
               [(0, "10.0.0.1"); (0, "10.0.0.1"); (40000000, "10.0.0.1");
                (7, "10.0.0.2")]%string) !! "10.0.0.1"%string = Some b /\
    (0 <= tokens b)%Q /\ (tokens b <= 300)%Q.
Proof.
  eexists. split; [vm_compute; reflexivity|].
  apply (C2_tokens_within_capacity 300 (10 * Time.Second)
           [(0, "10.0.0.1"); (0, "10.0.0.1"); (40000000, "10.0.0.1");
            (7, "10.0.0.2")]%string "10.0.0.1"%string); [lia|].
  vm_compute; reflexivity.
Defined.

(** C8: for two distinct addresses, a call of [Allow] for the first leaves
    the bucket of the second (tokens and last refill) as it is, and in every
    run the results of the calls for the second address and its bucket at
    the end are those of the run without the calls for the first. *)
Theorem C8_independent_quotas (ip1 ip2 : string) :
  ip1 ≠ ip2 ->
  (forall now rl, buckets (snd (Allow now ip1 rl)) !! ip2 = buckets rl !! ip2) /\
  (forall rl tr,
     results_for ip2 rl tr = results_for ip2 rl (without ip1 tr) /\
     buckets (final rl tr) !! ip2 = buckets (final rl (without ip1 tr)) !! ip2).
Proof.
  intros Hne. split.
  - intros now rl. by apply Allow_other.
  - intros rl tr.
    destruct (run_agree ip1 ip2 tr rl rl Hne (agree_refl ip2 rl)) as [Hres (_ & _ & Hb)].
    done.
Qed.

Lemma C8_independent_quotas_witness :
  let tr := [(0, "a"); (0, "b"); (5, "a"); (9, "b"); (9, "a")]%string in
  results_for "b" defaultIPLimiter tr = results_for "b" defaultIPLimiter (without "a" tr) /\
  buckets (final defaultIPLimiter tr) !! "b"%string =
  buckets (final defaultIPLimiter (without "a" tr)) !! "b"%string.
Proof.
  intros tr.
  assert ("a"%string ≠ "b"%string) as Hne by discriminate.
  exact (proj2 (C8_independent_quotas "a" "b" Hne) defaultIPLimiter tr).
Defined.

Section Burst.

Implicit Types (rl : ipRateLimiter) (b : bucket) (ip : string) (tr : list (Z * string)).

Lemma default_policy_limit rl : default_policy rl -> (limit rl == 300)%Q.
Proof. intros [-> _]. reflexivity. Qed.

Lemma default_policy_rate rl : default_policy rl -> (rate rl == 30)%Q.
Proof. intros [_ ->]. reflexivity. Qed.

Lemma default_policy_Allow now ip rl :
  default_policy rl -> default_policy (snd (Allow now ip rl)).
Proof. unfold default_policy. by rewrite Allow_limit, Allow_rate. Qed.

Lemma calls_of_cons_eq ip now tr :
  calls_of ip ((now, ip) :: tr) = (now, ip) :: calls_of ip tr.
Proof. unfold calls_of. cbn [List.filter snd]. by rewrite bool_decide_eq_true_2. Qed.

Lemma calls_of_cons_ne ip ip' now tr :
  ip' ≠ ip -> calls_of ip ((now, ip') :: tr) = calls_of ip tr.
Proof. intros H. unfold calls_of. cbn [List.filter snd]. by rewrite bool_decide_eq_false_2. Qed.

Lemma calls_of_app ip tr tr' : calls_of ip (tr ++ tr') = calls_of ip tr ++ calls_of ip tr'.
Proof. unfold calls_of. apply List.filter_app. Qed.

Lemma near_Q t0 t :
  near t0 t -> ((30 # 1000000000) * (inject_Z t - inject_Z t0) < 1)%Q.
Proof.
  unfold near. intros H.
  rewrite Zlt_Qlt, inject_Z_mult in H.
  unfold Zminus in H. rewrite inject_Z_plus, inject_Z_opp in H.
  change (inject_Z 30) with 30%Q in H.
  change (inject_Z 1000000000) with 1000000000%Q in H.
  lra.
Qed.

(** The refill of a bucket under the default policy never lowers the tokens
    and adds at most thirty tokens a second. *)
Lemma refill_default now rl b t0 :
  default_policy rl -> t0 <= last b ->
  let b' := refill rl now b in
  (forall x, x <= tokens b -> x <= 300 -> x <= tokens b')%Q /\
  (tokens b' - (30 # 1000000000) * (inject_Z (last b') - inject_Z t0) <=
   tokens b - (30 # 1000000000) * (inject_Z (last b) - inject_Z t0))%Q /\
  t0 <= last b' /\ (last b' = last b \/ last b' = now).
Proof.
  intros Hp Ht0. pose proof (default_policy_limit rl Hp) as Hl.
  pose proof (default_policy_rate rl Hp) as Hr.
  unfold refill.
  set (e := Time.Seconds (Time.Sub now (last b))).
  assert (e * rate rl == e * 30)%Q as Hprod by (by rewrite Hr).
  assert (e == inject_Z (Time.Sub now (last b)) * (1 # 1000000000))%Q as He2.
  { subst e. rewrite Seconds_eq. reflexivity. }
  destruct (Qltb 0 e) eqn:He; proj.
  - apply Qltb_lt in He. pose proof He as Hd.
    apply (proj1 (Seconds_pos _)) in Hd. pose proof (Sub_pos_le _ _ Hd) as Hle.
    apply (proj1 (Sub_pos _ _)) in Hd.
    rewrite Zle_Qle in Hle. unfold Zminus in Hle.
    rewrite inject_Z_plus, inject_Z_opp in Hle.
    set (d := inject_Z (Time.Sub now (last b))) in *.
    set (p := (e * rate rl)%Q) in *.
    destruct (Qltb (limit rl) _) eqn:Hc.
    + apply Qltb_lt in Hc.
      repeat split; [intros x Hx1 Hx2; lra| |lia|by right].
      lra.
    + apply Qltb_ge in Hc.
      repeat split; [intros x Hx1 Hx2; lra| |lia|by right].
      lra.
  - repeat split; [intros x Hx1 Hx2; lra|lra|lia|by left].
Qed.

Lemma inject_Z_299 j : j < 300 -> (inject_Z j <= 299)%Q.
Proof. intros H. change 299%Q with (inject_Z 299). rewrite <- Zle_Qle. lia. Qed.

Lemma inject_Z_succ j : (inject_Z (j + 1) == inject_Z j + 1)%Q.
Proof. by rewrite inject_Z_plus. Qed.

Lemma inject_Z_nonneg j : 0 <= j -> (0 <= inject_Z j)%Q.
Proof. intros H. change 0%Q with (inject_Z 0). by rewrite <- Zle_Qle. Qed.

(** While fewer than 300 calls were admitted the next one is. *)
Lemma Allow_lower now ip rl b j :
  default_policy rl -> buckets rl !! ip = Some b ->
  0 <= j < 300 -> (300 - inject_Z j <= tokens b)%Q ->
  fst (Allow now ip rl) = true /\
  exists b', buckets (snd (Allow now ip rl)) !! ip = Some b' /\
             (300 - inject_Z (j + 1) <= tokens b')%Q.
Proof.
  intros Hp Hb [Hj0 Hj] Hlow.
  destruct (refill_default now rl b (last b) Hp (Z.le_refl _)) as (Hre & _).
  pose proof (inject_Z_299 j Hj) as Hj'.
  pose proof (inject_Z_nonneg j Hj0) as Hj0'.
  specialize (Hre (300 - inject_Z j)%Q Hlow ltac:(lra)).
  pose proof (Allow_seen now ip rl b Hb) as Hs.
  destruct (Qltb _ 1) eqn:Hlt.
  - apply Qltb_lt in Hlt. lra.
  - destruct Hs as [-> ->]. split; [done|]. eexists. split; [done|]. proj.
    rewrite inject_Z_succ. lra.
Qed.

Lemma results_lower ip tr rl b j :
  default_policy rl -> buckets rl !! ip = Some b ->
  0 <= j -> j + Z.of_nat (length (calls_of ip tr)) <= 300 ->
  (300 - inject_Z j <= tokens b)%Q ->
  Forall (eq true) (results_for ip rl tr).
Proof.
  revert rl b j. induction tr as [|[now ip'] tr IH]; intros rl b j Hp Hb Hj Hlen Hlow.
  { constructor. }
  destruct (decide (ip' = ip)) as [->|Hne].
  - rewrite calls_of_cons_eq in Hlen. simpl in Hlen.
    rewrite results_for_cons_eq.
    destruct (Allow_lower now ip rl b j Hp Hb ltac:(lia) Hlow) as (-> & b' & Hb' & Hlow').
    constructor; [done|].
    apply (IH _ b' (j + 1)); [by apply default_policy_Allow|done|lia|lia|done].
  - rewrite calls_of_cons_ne in Hlen by done.
    rewrite results_for_cons_ne by done.
    apply (IH _ b j); [by apply default_policy_Allow| |done|done|done].
    by rewrite Allow_other.
Qed.

Lemma results_fresh ip tr rl :
  default_policy rl -> buckets rl !! ip = None ->
  Z.of_nat (length (calls_of ip tr)) <= 300 ->
  Forall (eq true) (results_for ip rl tr).
Proof.
  revert rl. induction tr as [|[now ip'] tr IH]; intros rl Hp Hb Hlen.
  { constructor. }
  destruct (decide (ip' = ip)) as [->|Hne].
  - rewrite calls_of_cons_eq in Hlen. simpl in Hlen.
    rewrite results_for_cons_eq.
    destruct (Allow_fresh now ip rl Hb) as [-> Hb'].
    constructor; [done|].
    apply (results_lower ip tr _ _ 1 (default_policy_Allow now ip rl Hp) Hb');
      [lia|lia|].
    proj. rewrite (default_policy_limit rl Hp). change (inject_Z 1) with 1%Q. lra.
  - rewrite calls_of_cons_ne in Hlen by done.
    rewrite results_for_cons_ne by done.
    apply IH; [by apply default_policy_Allow| |done].
    by rewrite Allow_other.
Qed.

(** A call near the first one, after fewer than 300 admitted calls that
    were all near the first one, is admitted and keeps the account. *)
Lemma Allow_burst now ip rl b t0 j :
  default_policy rl -> buckets rl !! ip = Some b ->
  burst_inv t0 j b -> 0 <= j < 300 -> near t0 now ->
  fst (Allow now ip rl) = true /\
  exists b', buckets (snd (Allow now ip rl)) !! ip = Some b' /\ burst_inv t0 (j + 1) b'.
Proof.
  intros Hp Hb (Hlow & Hup & Ht0 & Hnear) [Hj0 Hj] Hnow.
  destruct (refill_default now rl b t0 Hp Ht0) as (Hre & Hacc & Ht0' & Hlast).
  pose proof (inject_Z_299 j Hj) as Hj'.
  pose proof (inject_Z_nonneg j Hj0) as Hj0'.
  specialize (Hre (300 - inject_Z j)%Q Hlow ltac:(lra)).
  pose proof (Allow_seen now ip rl b Hb) as Hs.
  destruct (Qltb _ 1) eqn:Hlt.
  - apply Qltb_lt in Hlt. lra.
  - destruct Hs as [-> ->]. split; [done|]. eexists. split; [done|].
    unfold burst_inv. proj. rewrite inject_Z_succ.
    repeat split; [lra|lra|done|].
    by destruct Hlast as [-> | ->].
Qed.

(** After 300 admitted calls, a call near the first one is rejected. *)
Lemma Allow_exhausted now ip rl b t0 :
  default_policy rl -> buckets rl !! ip = Some b ->
  burst_inv t0 300 b -> near t0 now ->
  fst (Allow now ip rl) = false.
Proof.
  intros Hp Hb (Hlow & Hup & Ht0 & Hnear) Hnow.
  destruct (refill_default now rl b t0 Hp Ht0) as (_ & Hacc & _ & Hlast).
  pose proof (Allow_seen now ip rl b Hb) as Hs.
  destruct (Qltb _ 1) eqn:Hlt; [by destruct Hs|].
  apply Qltb_ge in Hlt. exfalso.
  change (inject_Z 300) with 300%Q in *.
  assert (near t0 (last (refill rl now b))) as Hn by (by destruct Hlast as [-> | ->]).
  apply near_Q in Hn. lra.
Qed.

Lemma final_burst ip t0 tr rl b j :
  default_policy rl -> buckets rl !! ip = Some b ->
  burst_inv t0 j b -> 0 <= j ->
  j + Z.of_nat (length (calls_of ip tr)) <= 300 ->
  Forall (fun c => near t0 (fst c)) (calls_of ip tr) ->
  exists b', buckets (final rl tr) !! ip = Some b' /\
             burst_inv t0 (j + Z.of_nat (length (calls_of ip tr))) b'.
Proof.
  revert rl b j.
  induction tr as [|[now ip'] tr IH]; intros rl b j Hp Hb Hinv Hj Hlen Hnear.
  { exists b. simpl. by rewrite Z.add_0_r. }
  rewrite final_cons.
  destruct (decide (ip' = ip)) as [->|Hne].
  - rewrite calls_of_cons_eq in *. simpl length in *.
    apply Forall_cons in Hnear as [Hnow Hnear]. simpl in Hnow.
    destruct (Allow_burst now ip rl b t0 j Hp Hb Hinv ltac:(lia) Hnow)
      as (_ & b' & Hb' & Hinv').
    destruct (IH _ b' (j + 1) (default_policy_Allow now ip rl Hp) Hb' Hinv'
                ltac:(lia) ltac:(lia) Hnear) as (b'' & Hb'' & Hinv'').
    exists b''. split; [done|].
    replace (j + Z.of_nat (S (length (calls_of ip tr))))
      with (j + 1 + Z.of_nat (length (calls_of ip tr))) by lia.
    done.
  - rewrite calls_of_cons_ne in * by done.
    apply (IH _ b j); [by apply default_policy_Allow| |done..].
    by rewrite Allow_other.
Qed.

Lemma final_burst_fresh ip t0 tr rl :
  default_policy rl -> buckets rl !! ip = None ->
  hd_error (calls_of ip tr) = Some (t0, ip) ->
  Z.of_nat (length (calls_of ip tr)) <= 300 ->
  Forall (fun c => near t0 (fst c)) (calls_of ip tr) ->
  exists b', buckets (final rl tr) !! ip = Some b' /\
             burst_inv t0 (Z.of_nat (length (calls_of ip tr))) b'.
Proof.
  revert rl.
  induction tr as [|[now ip'] tr IH]; intros rl Hp Hb Hhd Hlen Hnear.
  { discriminate. }
  rewrite final_cons.
  destruct (decide (ip' = ip)) as [->|Hne].
  - rewrite calls_of_cons_eq in *. simpl length in *.
    simpl in Hhd. injection Hhd as ->.
    apply Forall_cons in Hnear as [Hnow Hnear]. simpl in Hnow.
    destruct (Allow_fresh t0 ip rl Hb) as [_ Hb'].
    destruct (final_burst ip t0 tr _ _ 1 (default_policy_Allow t0 ip rl Hp) Hb')
      as (b'' & Hb'' & Hinv''); [|lia|lia|done|].
    + unfold burst_inv. proj. rewrite (default_policy_limit rl Hp).
      change (inject_Z 1) with 1%Q. repeat split; [lra|lra|lia|done].
    + exists b''. split; [done|].
      replace (Z.of_nat (S (length (calls_of ip tr))))
        with (1 + Z.of_nat (length (calls_of ip tr))) by lia.
      done.
  - rewrite calls_of_cons_ne in * by done.
    apply IH; [by apply default_policy_Allow| |done..].
    by rewrite Allow_other.
Qed.

Lemma Forall_true_repeat (l : list bool) :
  Forall (eq true) l -> l = repeat true (length l).
Proof. induction 1 as [|x l <- _ IH]; simpl; [done|]. by rewrite <- IH. Qed.

End Burst.

Lemma calls_of_repeat (ip : string) (t : Z) (n : nat) :
  calls_of ip (repeat (t, ip) n) = repeat (t, ip) n.
Proof.
  induction n as [|n IH]; [reflexivity|].
  cbn [repeat]. rewrite calls_of_cons_eq. by rewrite IH.
Qed.

Lemma Forall_repeat {A} (P : A -> Prop) (x : A) (n : nat) :
  P x -> Forall P (repeat x n).
Proof. intros H. induction n; constructor; done. Qed.

(** C1 (as amended): under the default policy (capacity 300, window 10 s)
    and from the start of the process, for every address the first 300
    calls of [Allow] are admitted, whenever they occur; the 301st call is
    rejected when it and the calls before it all occur less than a thirtieth
    of a second (the time in which one token is refilled) after the first
    call for that address.  Later in the window the bucket has refilled and
    the call can be admitted. *)
Theorem C1_burst_admitted_then_rejected (ip : string) :
  (forall tr,
     (length (calls_of ip tr) <= 300)%nat ->
     Forall (eq true) (results_for ip defaultIPLimiter tr)) /\
  (forall tr t0 t,
     hd_error (calls_of ip tr) = Some (t0, ip) ->
     length (calls_of ip tr) = 300%nat ->
     Forall (fun c => near t0 (fst c)) (calls_of ip tr) ->
     near t0 t ->
     results_for ip defaultIPLimiter (tr ++ [(t, ip)]) = repeat true 300 ++ [false]).
Proof.
  assert (default_policy defaultIPLimiter) as Hp by done.
  assert (buckets defaultIPLimiter !! ip = None) as Hb by apply lookup_empty.
  split.
  - intros tr Hlen. apply results_fresh; [done|done|lia].
  - intros tr t0 t Hhd Hlen Hnear Ht.
    rewrite results_for_app, results_for_cons_eq. cbn [results_for].
    f_equal.
    + pose proof (results_fresh ip tr defaultIPLimiter Hp Hb ltac:(lia)) as Hall.
      apply Forall_true_repeat in Hall.
      by rewrite results_for_length, Hlen in Hall.
    + destruct (final_burst_fresh ip t0 tr defaultIPLimiter Hp Hb Hhd ltac:(lia) Hnear)
        as (b & Hfb & Hinv).
      rewrite Hlen in Hinv.
      assert (default_policy (final defaultIPLimiter tr)) as Hp'.
      { unfold default_policy. by rewrite final_limit, final_rate. }
      by rewrite (Allow_exhausted t ip _ b t0 Hp' Hfb Hinv Ht).
Qed.

Lemma C1_burst_admitted_then_rejected_witness :
  results_for "203.0.113.7" defaultIPLimiter
    (repeat (0, "203.0.113.7"%string) 300 ++ [(33333333, "203.0.113.7"%string)])
  = repeat true 300 ++ [false].
Proof.
  apply (proj2 (C1_burst_admitted_then_rejected "203.0.113.7")
           (repeat (0, "203.0.113.7"%string) 300) 0 33333333).
  - vm_compute. reflexivity.
  - vm_compute. reflexivity.
  - rewrite calls_of_repeat. apply Forall_repeat. unfold near. cbn [fst]. lia.
  - unfold near. lia.
Defined.

(** C1, the claim as stated, fails: 300 calls at the start of a window
    followed by a call one second later, well within the same window of ten
    seconds, are all admitted, the 301st included: thirty tokens have been
    refilled in that second. *)
Lemma C1_counterexample :
  let ip := "203.0.113.7"%string in
  let tr := repeat (0, ip) 300 ++ [(1 * Time.Second, ip)] in
  Forall (fun c => 0 <= fst c < 10 * Time.Second) tr /\
  length (calls_of ip tr) = 301%nat /\
  nth 300 (results_for ip defaultIPLimiter tr) false = true.
Proof.
  intros ip tr. split; [|split].
  - apply Forall_app. split.
    + apply Forall_repeat. cbn [fst]. unfold Time.Second. lia.
    + constructor; [|constructor]. cbn [fst]. unfold Time.Second. lia.
  - vm_compute. reflexivity.
  - vm_compute. reflexivity.
Qed.

(** ** Headers *)

Section HeaderFacts.

Import Strings Header.

Implicit Types (h : Header) (k key value : string) (ks : list string).

Lemma lookup_Set_eq h key value :
  Set_ h key value !! CanonicalMIMEHeaderKey key = Some [value].
Proof. apply lookup_insert_eq. Qed.

Lemma lookup_Set_ne h key value k :
  CanonicalMIMEHeaderKey key ≠ k -> Set_ h key value !! k = h !! k.
Proof. intros H. by apply lookup_insert_ne. Qed.

Lemma lookup_Del_eq h key : Del h key !! CanonicalMIMEHeaderKey key = None.
Proof. apply lookup_delete_eq. Qed.

Lemma lookup_Del_ne h key k :
  CanonicalMIMEHeaderKey key ≠ k -> Del h key !! k = h !! k.
Proof. intros H. by apply lookup_delete_ne. Qed.

Lemma lookup_Del_None h key k : h !! k = None -> Del h key !! k = None.
Proof.
  intros H. destruct (decide (CanonicalMIMEHeaderKey key = k)) as [<-|Hne].
  - apply lookup_Del_eq.
  - by rewrite lookup_Del_ne.
Qed.

(** Deleting a list of names removes exactly their canonical keys. *)
Lemma lookup_foldl_Del h ks k :
  foldl Del h ks !! k =
  if bool_decide (k ∈ CanonicalMIMEHeaderKey <$> ks) then None else h !! k.
Proof.
  revert h. induction ks as [|a ks IH]; intros h.
  - cbn [foldl fmap list_fmap]. by rewrite bool_decide_eq_false_2 by apply not_elem_of_nil.
  - cbn [foldl]. rewrite IH. rewrite fmap_cons.
    destruct (decide (k ∈ CanonicalMIMEHeaderKey <$> ks)) as [Hin|Hnin].
    + rewrite !bool_decide_eq_true_2; [done|apply elem_of_cons; by right|done].
    + rewrite (bool_decide_eq_false_2 _ Hnin).
      destruct (decide (CanonicalMIMEHeaderKey a = k)) as [<-|Hne].
      * rewrite bool_decide_eq_true_2 by (apply elem_of_cons; by left). apply lookup_Del_eq.
      * rewrite bool_decide_eq_false_2; [by apply lookup_Del_ne|].
        intros [?|?]%elem_of_cons; congruence.
Qed.

Lemma Get_lookup h key :
  Get h key = match h !! CanonicalMIMEHeaderKey key with
              | Some (v :: _) => v
              | _ => EmptyString
              end.
Proof. reflexivity. Qed.

End HeaderFacts.

(** ** The request forwarder *)

(** Distinct constant header names have distinct canonical keys. *)
Ltac key_ne :=
  let H := fresh in intros H; vm_compute in H; discriminate H.

(** A constant key is not among constant keys. *)
Ltac key_notin := refine (proj1 (bool_decide_eq_false _) _); vm_compute; reflexivity.

(** Evaluates the membership tests on constant lists of keys. *)
Ltac eval_decide :=
  repeat match goal with
  | |- context [bool_decide ?P] =>
      let b := eval vm_compute in (bool_decide P) in
      change (bool_decide P) with b; cbv iota
  end.

Section ProxyFacts.

Import Strings Header HTTP Proxy.

Implicit Types (h : Header) (k : string) (req : Request).

Lemma strippedHeaders_canonical :
  CanonicalMIMEHeaderKey <$> strippedHeaders =
  ["X-Real-Ip"; "X-Forwarded-For"; "X-Forwarded-Host"; "X-Forwarded-Proto";
   "Forwarded"; "Via"; "Proxy-Connection"]%string.
Proof. reflexivity. Qed.

Lemma maskHeader_stripped h k :
  k ∈ CanonicalMIMEHeaderKey <$> strippedHeaders -> maskHeader h !! k = None.
Proof.
  intros Hk. unfold maskHeader.
  assert (foldl Del h strippedHeaders !! k = None) as H1.
  { rewrite lookup_foldl_Del. by rewrite bool_decide_eq_true_2. }
  assert (forall key, CanonicalMIMEHeaderKey key ∉ CanonicalMIMEHeaderKey <$> strippedHeaders ->
                      CanonicalMIMEHeaderKey key ≠ k) as Hne by (intros key Hn <-; done).
  destruct (String.eqb _ ""); destruct (String.eqb _ "");
    repeat (rewrite lookup_Set_ne by (apply Hne; key_notin));
    done.
Qed.

Lemma maskHeader_Get_Accept_Language h :
  Get (Set_ (foldl Del h strippedHeaders) "User-Agent" browserUserAgent) "Accept-Language"
  = Get h "Accept-Language".
Proof.
  rewrite !Get_lookup. rewrite lookup_Set_ne by key_ne.
  rewrite lookup_foldl_Del. by eval_decide.
Qed.

Lemma maskHeader_Accept_Language h :
  maskHeader h !! "Accept-Language"%string =
  if String.eqb (Get h "Accept-Language") "" then Some [defaultAcceptLanguage]
  else h !! "Accept-Language"%string.
Proof.
  unfold maskHeader. rewrite maskHeader_Get_Accept_Language.
  assert (forall h', foldl Del h' strippedHeaders !! "Accept-Language"%string
                     = h' !! "Accept-Language"%string) as Hdel.
  { intros h'. rewrite lookup_foldl_Del. by eval_decide. }
  destruct (String.eqb (Get h "Accept-Language") "");
    destruct (String.eqb _ "");
    repeat (rewrite lookup_Set_ne by key_ne);
    try (change "Accept-Language"%string with (CanonicalMIMEHeaderKey "Accept-Language");
         rewrite lookup_Set_eq);
    try done; apply Hdel.
Qed.

Lemma maskHeader_Get_Accept_Encoding h h' :
  h' !! "Accept-Encoding"%string = h !! "Accept-Encoding"%string ->
  Get h' "Accept-Encoding" = Get h "Accept-Encoding".
Proof.
  intros H. rewrite !Get_lookup.
  change (CanonicalMIMEHeaderKey "Accept-Encoding") with "Accept-Encoding"%string.
  by rewrite H.
Qed.

Lemma maskHeader_Accept_Encoding h :
  maskHeader h !! "Accept-Encoding"%string =
  if String.eqb (Get h "Accept-Encoding") "" then Some [defaultAcceptEncoding]
  else h !! "Accept-Encoding"%string.
Proof.
  unfold maskHeader.
  set (h2 := Set_ (foldl Del h strippedHeaders) "User-Agent" browserUserAgent).
  set (h3 := if String.eqb (Get h2 "Accept-Language") "" then _ else h2).
  assert (h3 !! "Accept-Encoding"%string = h !! "Accept-Encoding"%string) as H3.
  { subst h3 h2. destruct (String.eqb _ "");
      repeat (rewrite lookup_Set_ne by key_ne);
      rewrite lookup_foldl_Del; by eval_decide. }
  rewrite (maskHeader_Get_Accept_Encoding h h3 H3).
  destruct (String.eqb (Get h "Accept-Encoding") ""); [|done].
  change "Accept-Encoding"%string with (CanonicalMIMEHeaderKey "Accept-Encoding") at 2.
  apply lookup_Set_eq.
Qed.

Lemma maskHeader_other h k :
  k ∉ CanonicalMIMEHeaderKey <$> strippedHeaders ->
  k ≠ "User-Agent"%string -> k ≠ "Accept-Language"%string ->
  k ≠ "Accept-Encoding"%string ->
  maskHeader h !! k = h !! k.
Proof.
  intros Hk Hua Hal Hae. unfold maskHeader.
  destruct (String.eqb _ ""); destruct (String.eqb _ "");
    repeat (rewrite lookup_Set_ne by (intros E; vm_compute in E; congruence));
    rewrite lookup_foldl_Del; by rewrite bool_decide_eq_false_2.
Qed.

Lemma Director_header req : ReqHeader (Director req) = maskHeader (ReqHeader req).
Proof. reflexivity. Qed.

Lemma values_mask_Connection h :
  values (maskHeader h) "Connection" = values h "Connection".
Proof.
  unfold values. rewrite maskHeader_other; [done|key_notin|done..].
Qed.

Lemma connectionTokens_mask h : connectionTokens (maskHeader h) = connectionTokens h.
Proof. unfold connectionTokens. by rewrite values_mask_Connection. Qed.

Lemma removeHopByHopHeaders_lookup h k :
  removeHopByHopHeaders h !! k =
  if bool_decide (k ∈ CanonicalMIMEHeaderKey <$> hopHeaders) then None
  else if bool_decide (k ∈ CanonicalMIMEHeaderKey <$> connectionTokens h) then None
  else h !! k.
Proof. unfold removeHopByHopHeaders. by rewrite !lookup_foldl_Del. Qed.

Lemma advertiseTrailers_lookup inbound h k :
  k ≠ "Te"%string -> advertiseTrailers inbound h !! k = h !! k.
Proof.
  intros Hk. unfold advertiseTrailers.
  destruct (HeaderValuesContainsToken _ _); [|done].
  apply lookup_Set_ne. intros E. vm_compute in E. congruence.
Qed.

Lemma restoreUpgrade_lookup up h k :
  k ≠ "Connection"%string -> k ≠ "Upgrade"%string ->
  restoreUpgrade up h !! k = h !! k.
Proof.
  intros Hc Hu. unfold restoreUpgrade.
  destruct (negb _); [|done].
  rewrite !lookup_Set_ne; [done|intros E; vm_compute in E; congruence..].
Qed.

Lemma addForwardedFor_lookup_ne remote h k :
  k ≠ "X-Forwarded-For"%string -> addForwardedFor remote h !! k = h !! k.
Proof.
  intros Hk. unfold addForwardedFor.
  destruct (Net.SplitHostPort remote) as [[clientIP port]|]; [|done].
  destruct (h !! "X-Forwarded-For"%string) as [[|v prior]|]; [done| |];
    (rewrite lookup_Set_ne; [done|intros E; vm_compute in E; congruence]).
Qed.

Lemma addForwardedFor_absent remote h host port :
  Net.SplitHostPort remote = inl (host, port) ->
  h !! "X-Forwarded-For"%string = None ->
  addForwardedFor remote h !! "X-Forwarded-For"%string = Some [host].
Proof.
  intros Hs Hx. unfold addForwardedFor. rewrite Hs, Hx.
  change "X-Forwarded-For"%string with (CanonicalMIMEHeaderKey "X-Forwarded-For") at 2.
  apply lookup_Set_eq.
Qed.

Lemma defaultUserAgent_lookup h k :
  k ≠ "User-Agent"%string -> defaultUserAgent h !! k = h !! k.
Proof.
  intros Hk. unfold defaultUserAgent.
  destruct (h !! "User-Agent"%string); [done|].
  apply lookup_Set_ne. intros E. vm_compute in E. congruence.
Qed.

Lemma outbound_header req out :
  outbound req = Some out ->
  ReqHeader out =
  finishHeader req (upgradeType (maskHeader (ReqHeader req))) (maskHeader (ReqHeader req)).
Proof.
  unfold outbound. rewrite Director_header.
  destruct (negb _); [discriminate|]. by intros [= <-].
Qed.

(** The header of the forwarded request at a key that the library steps
    after the director do not write. *)
Lemma finishHeader_lookup req up h k :
  k ≠ "Te"%string -> k ≠ "Connection"%string -> k ≠ "Upgrade"%string ->
  k ≠ "X-Forwarded-For"%string -> k ≠ "User-Agent"%string ->
  finishHeader req up h !! k = removeHopByHopHeaders h !! k.
Proof.
  intros. unfold finishHeader.
  rewrite defaultUserAgent_lookup, addForwardedFor_lookup_ne,
    restoreUpgrade_lookup, advertiseTrailers_lookup by done.
  done.
Qed.

End ProxyFacts.

Import Strings Header HTTP Proxy.

(** The header that the forwarded request has at [X-Forwarded-For]: the
    director deletes the key, and the proxy then sets it to the host of the
    client's address. *)
Lemma forwarded_for_after_director (req : Request) (up host port : string) :
  Net.SplitHostPort (RemoteAddr req) = inl (host, port) ->
  finishHeader req up (maskHeader (ReqHeader req)) !! "X-Forwarded-For"%string
  = Some [host].
Proof.
  intros Hs. unfold finishHeader.
  rewrite defaultUserAgent_lookup by done.
  apply addForwardedFor_absent with port; [done|].
  rewrite restoreUpgrade_lookup, advertiseTrailers_lookup by done.
  rewrite removeHopByHopHeaders_lookup.
  destruct (bool_decide _); [done|]. destruct (bool_decide _); [done|].
  apply maskHeader_stripped. rewrite strippedHeaders_canonical.
  apply elem_of_cons; right. apply elem_of_cons; by left.
Qed.

(** C3 (the code departs from the claim): every request that is forwarded
    and whose remote address has the form host:port reaches the upstream
    with the header [X-Forwarded-For] set to the host of the client, although
    the director deleted that header. *)
Theorem C3_forwarded_for_is_added (req out : Request) (host port : string) :
  outbound req = Some out ->
  Net.SplitHostPort (RemoteAddr req) = inl (host, port) ->
  ReqHeader out !! "X-Forwarded-For"%string = Some [host].
Proof.
  intros Hout Hs. rewrite (outbound_header req out Hout).
  by apply forwarded_for_after_director with port.
Qed.

Lemma C3_forwarded_for_is_added_witness :
  let req :=
    {| Method := "GET";
       ReqURL := {| Scheme := ""; URLHost := ""; Path := "/m"; RawQuery := "sl=en" |};
       Host := "proxy.example";
       ReqHeader := {[ "User-Agent"%string := ["curl/8.0"%string] ]};
       RemoteAddr := "203.0.113.7:51234" |} in
  exists out,
    outbound req = Some out /\
    ReqHeader out !! "X-Forwarded-For"%string = Some ["203.0.113.7"%string].
Proof.
  intros req. eexists. split; [vm_compute; reflexivity|].
  eapply (C3_forwarded_for_is_added req _ "203.0.113.7" "51234");
    vm_compute; reflexivity.
Defined.

(** C5 (as amended): in the request that is forwarded, [Accept-Language]
    and [Accept-Encoding] are the defaults when the inbound request has no
    such header or has one whose first value is empty, and are all the
    inbound values, unmodified, when the first value is not empty;
    provided the header is not named in the inbound [Connection] header,
    in which case the proxy removes it as a hop-by-hop header. *)
Theorem C5_accept_headers (req out : Request) (name dflt : string) :
  (name = "Accept-Language"%string /\ dflt = defaultAcceptLanguage) \/
  (name = "Accept-Encoding"%string /\ dflt = defaultAcceptEncoding) ->
  outbound req = Some out ->
  name ∉ CanonicalMIMEHeaderKey <$> connectionTokens (ReqHeader req) ->
  ReqHeader out !! name =
  if String.eqb (Get (ReqHeader req) name) "" then Some [dflt]
  else ReqHeader req !! name.
Proof.
  intros Hname Hout Hconn. rewrite (outbound_header req out Hout).
  assert (removeHopByHopHeaders (maskHeader (ReqHeader req)) !! name =
          maskHeader (ReqHeader req) !! name) as Hhop.
  { rewrite removeHopByHopHeaders_lookup, connectionTokens_mask.
    rewrite (bool_decide_eq_false_2 _ Hconn).
    destruct Hname as [[-> _]|[-> _]]; by eval_decide. }
  destruct Hname as [[-> ->]|[-> ->]].
  - rewrite finishHeader_lookup, Hhop by done. apply maskHeader_Accept_Language.
  - rewrite finishHeader_lookup, Hhop by done. apply maskHeader_Accept_Encoding.
Qed.

Lemma C5_accept_headers_witness :
  let req :=
    {| Method := "GET";
       ReqURL := {| Scheme := ""; URLHost := ""; Path := "/m"; RawQuery := "" |};
       Host := "proxy.example";
       ReqHeader := {[ "Accept-Encoding"%string := ["identity"%string] ]};
       RemoteAddr := "203.0.113.7:51234" |} in
  exists out,
    outbound req = Some out /\
    ReqHeader out !! "Accept-Encoding"%string = Some ["identity"%string] /\
    ReqHeader out !! "Accept-Language"%string = Some [defaultAcceptLanguage].
Proof.
  intros req. eexists. split; [vm_compute; reflexivity|]. split.
  - rewrite (C5_accept_headers req _ "Accept-Encoding" defaultAcceptEncoding);
      [vm_compute; reflexivity|by right|vm_compute; reflexivity|key_notin].
  - rewrite (C5_accept_headers req _ "Accept-Language" defaultAcceptLanguage);
      [vm_compute; reflexivity|by left|vm_compute; reflexivity|key_notin].
Defined.

(** C5, the claim as stated, fails: an inbound request that has the header
    [Accept-Language], with an empty first value and the value fr, is
    forwarded with the default list in place of its values. *)
Lemma C5_counterexample :
  let req :=
    {| Method := "GET";
       ReqURL := {| Scheme := ""; URLHost := ""; Path := "/m"; RawQuery := "" |};
       Host := "proxy.example";
       ReqHeader := {[ "Accept-Language"%string := [""%string; "fr"%string] ]};
       RemoteAddr := "203.0.113.7:51234" |} in
  ReqHeader req !! "Accept-Language"%string = Some [""%string; "fr"%string] /\
  ReqHeader (Director req) !! "Accept-Language"%string = Some [defaultAcceptLanguage] /\
  (ReqHeader <$> outbound req) ≫= (fun h => h !! "Accept-Language"%string)
  = Some [defaultAcceptLanguage].
Proof. intros req. repeat split; vm_compute; reflexivity. Qed.

(** ** Timestamps *)

Section TimeFormat.

Import Time.

Lemma digitVal_digit (n : nat) : digitVal (digit n) = Some (n mod 10)%nat.
Proof.
  unfold digitVal, digit.
  pose proof (Nat.mod_upper_bound n 10 ltac:(lia)) as Hlt.
  rewrite nat_ascii_embedding by lia.
  destruct (48 <=? 48 + n mod 10)%nat eqn:H1; [|apply Nat.leb_gt in H1; lia].
  destruct (48 + n mod 10 <=? 57)%nat eqn:H2; [|apply Nat.leb_gt in H2; lia].
  cbn [andb]. f_equal. lia.
Qed.

Lemma read2_pad2 (n : nat) (k : string) : read2 (pad2 n k) = Some ((n mod 100)%nat, k).
Proof.
  unfold read2, pad2. rewrite !digitVal_digit. do 2 f_equal.
  pose proof (Nat.div_mod_eq n 10). pose proof (Nat.div_mod_eq (n / 10) 10).
  pose proof (Nat.div_mod_eq n 100).
  pose proof (Nat.mod_upper_bound n 10 ltac:(lia)).
  pose proof (Nat.mod_upper_bound (n / 10) 10 ltac:(lia)).
  pose proof (Nat.mod_upper_bound n 100 ltac:(lia)).
  lia.
Qed.

Lemma read2_pad4 (n : nat) (k : string) :
  read2 (pad4 n k) = Some ((n / 100 mod 100)%nat, pad2 n k).
Proof.
  unfold read2, pad4. rewrite !digitVal_digit. do 2 f_equal.
  replace (n / 1000)%nat with (n / 100 / 10)%nat by (by rewrite Nat.Div0.div_div).
  set (c := (n / 100)%nat).
  pose proof (Nat.div_mod_eq c 10). pose proof (Nat.div_mod_eq (c / 10) 10).
  pose proof (Nat.div_mod_eq c 100).
  pose proof (Nat.mod_upper_bound c 10 ltac:(lia)).
  pose proof (Nat.mod_upper_bound (c / 10) 10 ltac:(lia)).
  pose proof (Nat.mod_upper_bound c 100 ltac:(lia)).
  lia.
Qed.

Lemma expect_cons (c : ascii) (k : string) : expect c (String c k) = Some k.
Proof. unfold expect. by rewrite Ascii.eqb_refl. Qed.

Lemma quot_60_bound (off : Z) :
  - 86400 < off < 86400 -> - 1440 < Z.quot off 60 < 1440.
Proof.
  intros H. pose proof (Z.quot_rem' off 60) as Hq.
  assert (60 <> 0) as H60 by lia.
  pose proof (Z.rem_bound_abs off 60 H60) as Hr.
  destruct (Z.le_ge_cases 0 off) as [Hs|Hs].
  - pose proof (Z.rem_nonneg off 60 H60 Hs). lia.
  - pose proof (Z.rem_nonpos off 60 H60 Hs). lia.
Qed.

Lemma readZone_zone (off : Z) :
  - 86400 < off < 86400 -> readZone (zone off) = Some (60 * Z.quot off 60).
Proof.
  intros Hoff. unfold zone.
  destruct (Z.eqb_spec off 0) as [->|Hne]; [reflexivity|].
  set (m := Z.quot off 60).
  assert (- 1440 < m < 1440) as Hm.
  { subst m. by apply quot_60_bound. }
  set (a := Z.to_nat (Z.abs m)).
  assert (a < 1440)%nat as Ha by (subst a; lia).
  assert (a / 60 < 24)%nat as Hh by (apply Nat.Div0.div_lt_upper_bound; lia).
  pose proof (Nat.mod_upper_bound a 60 ltac:(lia)) as Hmi.
  assert (forall sg, (sg = "+"%char \/ sg = "-"%char) ->
            readZone (String sg (pad2 (a / 60) (String ":" (pad2 (a mod 60) EmptyString))))
            = Some (if Ascii.eqb sg "-" then - Z.of_nat (60 * a) else Z.of_nat (60 * a)))
    as Hread.
  { intros sg Hsg.
    assert (readZone (String sg (pad2 (a / 60) (String ":" (pad2 (a mod 60) EmptyString)))) =
            (if Ascii.eqb sg "+" || Ascii.eqb sg "-" then
               '(h, k) ← read2 (pad2 (a / 60) (String ":" (pad2 (a mod 60) EmptyString)));
               k ← expect ":" k;
               '(mi, k) ← read2 k;
               match k with
               | EmptyString =>
                   if (h <? 24)%nat && (mi <? 60)%nat then
                     let secs := Z.of_nat (60 * (60 * h + mi)) in
                     Some (if Ascii.eqb sg "-" then - secs else secs)
                   else None
               | _ => None
               end
             else None)) as ->.
    { destruct Hsg as [-> | ->]; reflexivity. }
    replace (Ascii.eqb sg "+" || Ascii.eqb sg "-") with true
      by (destruct Hsg as [-> | ->]; reflexivity).
    rewrite read2_pad2. cbn [mbind option_bind]. rewrite expect_cons.
    cbn [mbind option_bind]. rewrite read2_pad2. cbn [mbind option_bind].
    rewrite !Nat.mod_small by lia.
    destruct (Nat.ltb_spec (a / 60) 24); [|lia].
    destruct (Nat.ltb_spec (a mod 60) 60); [|lia].
    cbn [andb]. cbv zeta.
    replace (60 * (a / 60) + a mod 60)%nat with a
      by apply Nat.div_mod_eq.
    done. }
  destruct (Z.ltb_spec m 0).
  - rewrite Hread by (by right).
    change (Ascii.eqb "-" "-") with true. cbv iota. f_equal. subst a. lia.
  - rewrite Hread by (by left).
    change (Ascii.eqb "+" "-") with false. cbv iota. f_equal. subst a. lia.
Qed.

(** A timestamp printed in the layout RFC3339 reads back as the time it
    was printed from, with the zone offset in whole minutes. *)
Lemma ParseRFC3339_FormatRFC3339 (t : Civil) :
  valid t -> ParseRFC3339 (FormatRFC3339 t) = Some (wholeMinutes t).
Proof.
  intros (Hy & (Hmo & Hd & Hh & Hmi & Hs) & Hoff).
  unfold ParseRFC3339, FormatRFC3339.
  rewrite read2_pad4. cbn [mbind option_bind]. rewrite read2_pad2.
  repeat (cbn [mbind option_bind]; rewrite ?expect_cons, ?read2_pad2).
  cbn [mbind option_bind]. rewrite readZone_zone by done.
  cbn [mbind option_bind].
  rewrite !(Nat.mod_small (month t)), !(Nat.mod_small (day t)),
    !(Nat.mod_small (hour t)), !(Nat.mod_small (minute t)),
    !(Nat.mod_small (second t)) by lia.
  assert (year t / 100 < 100)%nat as Hc by (apply Nat.Div0.div_lt_upper_bound; lia).
  rewrite (Nat.mod_small (year t / 100)) by done.
  replace (100 * (year t / 100) + year t mod 100)%nat with (year t)
    by apply Nat.div_mod_eq.
  destruct (Nat.leb_spec 1 (month t)); [|lia].
  destruct (Nat.leb_spec (month t) 12); [|lia].
  destruct (Nat.leb_spec 1 (day t)); [|lia].
  destruct (Nat.leb_spec (day t) 31); [|lia].
  destruct (Nat.ltb_spec (hour t) 24); [|lia].
  destruct (Nat.ltb_spec (minute t) 60); [|lia].
  destruct (Nat.ltb_spec (second t) 60); [|lia].
  reflexivity.
Qed.

End TimeFormat.

(** ** The client address *)

Section ClientIP.

Import Strings.

Lemma Split_nonempty (s : string) (sep : ascii) : Split s sep ≠ [].
Proof.
  destruct s as [|c s]; cbn [Split]; [done|].
  destruct (Ascii.eqb c sep); [done|]. by destruct (Split s sep).
Qed.

(** The first piece of [strings.Split] is the text before the first
    separator. *)
Lemma hd_Split (s : string) (sep : ascii) :
  hd EmptyString (Split s sep) = beforeByte s sep.
Proof.
  unfold beforeByte. induction s as [|c s IH]; [reflexivity|].
  cbn [Split IndexByte]. destruct (Ascii.eqb c sep); [reflexivity|].
  pose proof (Split_nonempty s sep) as Hne.
  destruct (Split s sep) as [|x xs]; [done|]. cbn [hd] in *.
  destruct (IndexByte s sep) as [i|]; cbn [fmap option_fmap option_map slice_to];
    by rewrite IH.
Qed.

Lemma LastIndexByte_None (s : string) (c : ascii) :
  IndexByte s c = None -> LastIndexByte s c = None.
Proof.
  induction s as [|a s IH]; [done|]. cbn [IndexByte LastIndexByte].
  destruct (Ascii.eqb a c); [done|].
  destruct (IndexByte s c); [done|]. intros _. by rewrite IH.
Qed.

(** An address without a colon has no port. *)
Lemma SplitHostPort_no_colon (s : string) :
  IndexByte s ":" = None -> Net.SplitHostPort s = inr "missing port in address"%string.
Proof. intros H. unfold Net.SplitHostPort. by rewrite (LastIndexByte_None s ":" H). Qed.

End ClientIP.

(** ** The middleware chain *)

Section Middleware.

Import Strings Header HTTP Server.

Variable Quote : string -> string.

Implicit Types (r : Request) (env : Env) (st : State).

Lemma mux_state r env st :
  limiter (snd (mux r env st)) = limiter st /\
  accessLogCh (snd (mux r env st)) = accessLogCh st.
Proof.
  unfold mux. destruct (String.eqb _ _); [done|].
  unfold proxy. by destruct (Proxy.ServeHTTP _ _).
Qed.

Lemma rateLimitMiddleware_limiter r env st :
  limiter (snd (rateLimitMiddleware mux r env st)) =
  snd (Allow (now env) (clientIP r) (limiter st)).
Proof.
  unfold rateLimitMiddleware.
  destruct (Allow _ _ _) as [ok rl]. destruct ok; cbn [negb snd].
  - by rewrite (proj1 (mux_state _ _ _)).
  - done.
Qed.

Lemma rateLimitMiddleware_accessLogCh r env st :
  accessLogCh (snd (rateLimitMiddleware mux r env st)) = accessLogCh st.
Proof.
  unfold rateLimitMiddleware.
  destruct (Allow _ _ _) as [ok rl]. destruct ok; cbn [negb snd].
  - by rewrite (proj2 (mux_state _ _ _)).
  - done.
Qed.

Lemma loggingMiddleware_response (next : Handler) r env st :
  fst (loggingMiddleware Quote next r env st) = fst (next r env st).
Proof.
  unfold loggingMiddleware. destruct (next r env st) as [res st'].
  by destruct (accessLogCh st').
Qed.

Lemma loggingMiddleware_accessLogCh (next : Handler) r env st ch :
  accessLogCh (snd (next r env st)) = Some ch ->
  accessLogCh (snd (loggingMiddleware Quote next r env st)) =
  Some (fst (trySend ch (accessLine Quote (clientIP r) (Get (ReqHeader r) "User-Agent")))).
Proof.
  unfold loggingMiddleware. destruct (next r env st) as [res st'].
  cbn [snd]. by intros ->.
Qed.

Lemma trySend_full (ch : Chan) (msg : string) :
  capacity ch <= Z.of_nat (length (buf ch)) -> trySend ch msg = (ch, false).
Proof.
  intros H. unfold trySend. destruct (Z.ltb_spec (Z.of_nat (length (buf ch))) (capacity ch)); [lia|done].
Qed.


End Middleware.

Import Server.

(** C4 (as amended): a request to the path [/healthz] goes through the
    rate limiter like every other request.  When the limiter admits the
    client's address the response is 200 with the body [ok <timestamp>],
    where the timestamp is in the layout RFC3339 and reads back as the time
    of the call, whatever the upstream does; when the bucket of the
    client's address is exhausted the response is 429. *)
Theorem C4_healthz_behind_limiter (Quote : string -> string)
    (r : Request) (env : Env) (st : State) :
  Path (ReqURL r) = "/healthz"%string ->
  Time.valid (wall env) ->
  if fst (Allow (now env) (clientIP r) (limiter st)) then
    fst (handler Quote r env st) =
      plainText StatusOK ("ok " +:+ Time.FormatRFC3339 (wall env)) /\
    Time.ParseRFC3339 (Time.FormatRFC3339 (wall env)) = Some (Time.wholeMinutes (wall env))
  else
    fst (handler Quote r env st) =
      plainText StatusTooManyRequests ("Too Many Requests" +:+ String "010" EmptyString).
Proof.
  intros Hpath Hvalid. unfold handler.
  rewrite loggingMiddleware_response. unfold rateLimitMiddleware.
  destruct (Allow _ _ _) as [ok rl]. destruct ok; cbn [negb fst].
  - split; [|by apply ParseRFC3339_FormatRFC3339].
    unfold mux. by rewrite Hpath.
  - done.
Qed.

Lemma C4_healthz_behind_limiter_witness :
  let r :=
    {| Method := "GET";
       ReqURL := {| Scheme := ""; URLHost := ""; Path := "/healthz"; RawQuery := "" |};
       Host := "proxy.example"; ReqHeader := ∅; RemoteAddr := "203.0.113.7:51234" |} in
  let env :=
    {| now := 0;
       wall := {| Time.year := 2025; Time.month := 1; Time.day := 1;
                  Time.hour := 12; Time.minute := 0; Time.second := 0;
                  Time.offset := 28800 |};
       upstream := fun _ => inr "connection refused"%string |} in
  StatusCode (fst (handler quotePlain r env initial)) = 200 /\
  Body (fst (handler quotePlain r env initial)) = "ok 2025-01-01T12:00:00+08:00"%string.
Proof.
  intros r env.
  assert (Path (ReqURL r) = "/healthz"%string) as Hp by reflexivity.
  assert (Time.valid (wall env)) as Hv by (unfold Time.valid; cbn; lia).
  pose proof (C4_healthz_behind_limiter quotePlain r env initial Hp Hv) as H.
  change (fst (Allow (now env) (clientIP r) (limiter initial))) with true in H.
  destruct H as [-> _]. split; reflexivity.
Defined.

(** C4, the claim as stated, fails: after 300 requests from one address at
    one instant its bucket is exhausted, and the next request of that
    address to [/healthz] is answered 429 [Too Many Requests], not 200. *)
Lemma C4_counterexample :
  let r :=
    {| Method := "GET";
       ReqURL := {| Scheme := ""; URLHost := ""; Path := "/healthz"; RawQuery := "" |};
       Host := "proxy.example"; ReqHeader := ∅; RemoteAddr := "203.0.113.7:51234" |} in
  let env :=
    {| now := 0;
       wall := {| Time.year := 2025; Time.month := 1; Time.day := 1;
                  Time.hour := 12; Time.minute := 0; Time.second := 0;
                  Time.offset := 0 |};
       upstream := fun _ => inr "connection refused"%string |} in
  let st := snd (serve quotePlain initial (repeat (r, env) 300)) in
  Path (ReqURL r) = "/healthz"%string /\
  fst (handler quotePlain r env st) =
    plainText 429 ("Too Many Requests" +:+ String "010" EmptyString).
Proof. intros r env st. split; [reflexivity|]. vm_compute. reflexivity. Qed.

(** C7: when the access-log queue holds as many entries as its capacity,
    the handler of the server behaves as the handlers it wraps: it returns
    their response, and the state it leaves is theirs, the queue as it was;
    the entry of the request is dropped. *)
Theorem C7_full_queue_drops_entry (Quote : string -> string)
    (r : Request) (env : Env) (st : State) (ch : Chan) :
  accessLogCh st = Some ch ->
  capacity ch <= Z.of_nat (length (buf ch)) ->
  handler Quote r env st = rateLimitMiddleware mux r env st /\
  accessLogCh (snd (handler Quote r env st)) = Some ch.
Proof.
  intros Hch Hfull. unfold handler.
  pose proof (rateLimitMiddleware_accessLogCh r env st) as Hinner.
  rewrite Hch in Hinner.
  unfold loggingMiddleware.
  destruct (rateLimitMiddleware mux r env st) as [res [rl ach elog]].
  cbn [snd accessLogCh limiter errorLog] in *. subst ach.
  by rewrite trySend_full.
Qed.

Lemma C7_full_queue_drops_entry_witness :
  let r :=
    {| Method := "GET";
       ReqURL := {| Scheme := ""; URLHost := ""; Path := "/healthz"; RawQuery := "" |};
       Host := "proxy.example"; ReqHeader := ∅; RemoteAddr := "203.0.113.7:51234" |} in
  let env :=
    {| now := 0;
       wall := {| Time.year := 2025; Time.month := 1; Time.day := 1;
                  Time.hour := 12; Time.minute := 0; Time.second := 0;
                  Time.offset := 0 |};
       upstream := fun _ => inr "connection refused"%string |} in
  let ch := {| buf := repeat "entry"%string (Z.to_nat 10000); capacity := 10000 |} in
  let st := {| limiter := defaultIPLimiter; accessLogCh := Some ch; errorLog := [] |} in
  handler quotePlain r env st = rateLimitMiddleware mux r env st /\
  accessLogCh (snd (handler quotePlain r env st)) = Some ch.
Proof.
  intros r env ch st.
  apply (C7_full_queue_drops_entry quotePlain r env st ch); [reflexivity|].
  unfold ch. cbn [buf capacity]. rewrite List.repeat_length. lia.
Defined.

(** C10 (as amended): the address that keys the limiter and is written to
    the access log is, in this order: the trimmed text before the first comma
    of the first value of [X-Forwarded-For] when that value is not empty;
    else the trimmed first value of [X-Real-IP] when that is not empty;
    else the host of the remote address, or the whole remote address when it
    does not split into host and port (as when it has no colon).  A header
    that is absent and a header whose first value is empty are treated
    alike. *)
Theorem C10_client_ip_derivation (Quote : string -> string) (r : Request) :
  let xff := Get (ReqHeader r) "X-Forwarded-For" in
  let xr := Get (ReqHeader r) "X-Real-IP" in
  (xff ≠ EmptyString -> clientIP r = TrimSpace (beforeByte xff ",")) /\
  (xff = EmptyString -> xr ≠ EmptyString -> clientIP r = TrimSpace xr) /\
  (xff = EmptyString -> xr = EmptyString ->
     forall host port, Net.SplitHostPort (RemoteAddr r) = inl (host, port) ->
     clientIP r = host) /\
  (xff = EmptyString -> xr = EmptyString ->
     (forall why, Net.SplitHostPort (RemoteAddr r) = inr why -> clientIP r = RemoteAddr r) /\
     (IndexByte (RemoteAddr r) ":" = None -> clientIP r = RemoteAddr r)) /\
  (forall env st,
     limiter (snd (rateLimitMiddleware mux r env st)) =
     snd (Allow (now env) (clientIP r) (limiter st))) /\
  (forall env st ch,
     accessLogCh st = Some ch ->
     accessLogCh (snd (handler Quote r env st)) =
     Some (fst (trySend ch (accessLine Quote (clientIP r) (Get (ReqHeader r) "User-Agent"))))).
Proof.
  intros xff xr. subst xff xr. unfold clientIP.
  split; [|split; [|split; [|split; [|split]]]].
  - intros H. apply (proj2 (String.eqb_neq _ _)) in H. rewrite H. cbn [negb].
    by rewrite hd_Split.
  - intros -> H. apply (proj2 (String.eqb_neq _ _)) in H. rewrite H. reflexivity.
  - intros -> -> host port ->. reflexivity.
  - intros -> ->. split.
    + intros why ->. reflexivity.
    + intros H. by rewrite SplitHostPort_no_colon.
  - intros env st. apply rateLimitMiddleware_limiter.
  - intros env st ch Hch. unfold handler.
    apply loggingMiddleware_accessLogCh.
    by rewrite rateLimitMiddleware_accessLogCh.
Qed.

Lemma C10_client_ip_derivation_witness :
  let r :=
    {| Method := "GET";
       ReqURL := {| Scheme := ""; URLHost := ""; Path := "/"; RawQuery := "" |};
       Host := "proxy.example";
       ReqHeader := {[ "X-Forwarded-For"%string := [" 198.51.100.9 , 10.0.0.1"%string];
                       "X-Real-Ip"%string := ["192.0.2.1"%string] ]};
       RemoteAddr := "203.0.113.7:51234" |} in
  clientIP r = "198.51.100.9"%string.
Proof.
  intros r.
  rewrite (proj1 (C10_client_ip_derivation quotePlain r)); [reflexivity|].
  vm_compute. discriminate.
Defined.

(** C10, the claim as stated, fails: a request that has the header
    [X-Forwarded-For], with an empty first value and the value 198.51.100.9,
    and no [X-Real-IP], is keyed by the host of its remote address, not by
    an element of the header. *)
Lemma C10_counterexample :
  let r :=
    {| Method := "GET";
       ReqURL := {| Scheme := ""; URLHost := ""; Path := "/"; RawQuery := "" |};
       Host := "proxy.example";
       ReqHeader := {[ "X-Forwarded-For"%string := [""%string; "198.51.100.9"%string] ]};
       RemoteAddr := "203.0.113.7:51234" |} in
  ReqHeader r !! "X-Forwarded-For"%string = Some [""%string; "198.51.100.9"%string] /\
  clientIP r = "203.0.113.7"%string.
Proof. intros r. split; vm_compute; reflexivity. Qed.

(** ** The day-rotating log writer *)

Section LogSinkFacts.

Import LogSink.

Implicit Types (w : dailyFileWriter) (os : World) (p date : string).

(** A rotation that fails changes neither the writer nor the files. *)
Lemma rotate_failure date w os err :
  fst (fst (rotate date w os)) = Some err -> rotate date w os = (Some err, w, os).
Proof.
  unfold rotate, MkdirAll, OpenFile.
  destruct (mkdirErr os (dir w)) as [e|]; cbn [fst]; [by intros [= ->]|].
  destruct (openErr os (logPath w date)) as [e|]; cbn [fst]; [by intros [= ->]|].
  discriminate.
Qed.

Lemma rotate_fails_iff date w os err :
  fst (fst (rotate date w os)) = Some err <->
  mkdirErr os (dir w) = Some err \/
  (mkdirErr os (dir w) = None /\ openErr os (logPath w date) = Some err).
Proof.
  unfold rotate, MkdirAll, OpenFile.
  destruct (mkdirErr os (dir w)) as [e|]; cbn [fst].
  - split; [by left|]. by intros [?|[? _]].
  - destruct (openErr os (logPath w date)) as [e|]; cbn [fst].
    + split; [by right|]. by intros [?|[_ ?]].
    + split; [done|]. by intros [?|[_ ?]].
Qed.

End LogSinkFacts.

(** C6: when the writer has to rotate (no file is open, or the day has
    changed) and the rotation fails, in the creation of the directory or in
    the opening of the file, [Write] returns what the write of the bytes to
    standard output returns, not the error of the rotation; the writer is
    left as it was, and when standard output accepts the write the bytes are
    appended to it and the result is their number without error. *)
Theorem C6_rotation_failure_falls_back_to_stdout
    (now : Time.Civil) (p : string) (w : LogSink.dailyFileWriter) (os : LogSink.World) (err : string) :
  LogSink.file w = None \/ LogSink.currentDate w ≠ Time.FormatDate now ->
  LogSink.mkdirErr os (LogSink.dir w) = Some err \/
  (LogSink.mkdirErr os (LogSink.dir w) = None /\ LogSink.openErr os (LogSink.logPath w (Time.FormatDate now)) = Some err) ->
  LogSink.Write now p w os = (fst (LogSink.StdoutWrite p os), w, snd (LogSink.StdoutWrite p os)) /\
  (LogSink.stdoutErr os = None ->
   fst (fst (LogSink.Write now p w os)) = (Z.of_nat (String.length p), None) /\
   LogSink.stdout (snd (LogSink.Write now p w os)) = LogSink.stdout os +:+ p /\
   LogSink.files (snd (LogSink.Write now p w os)) = LogSink.files os).
Proof.
  intros Hrot Hfail. apply rotate_fails_iff in Hfail. apply rotate_failure in Hfail.
  assert (LogSink.Write now p w os = (fst (LogSink.StdoutWrite p os), w, snd (LogSink.StdoutWrite p os))) as HW.
  { unfold LogSink.Write.
    replace (bool_decide (LogSink.file w = None) ||
             negb (String.eqb (LogSink.currentDate w) (Time.FormatDate now))) with true.
    - rewrite Hfail. by destruct (LogSink.StdoutWrite p os).
    - symmetry. destruct Hrot as [H|H].
      + by rewrite bool_decide_eq_true_2.
      + apply (proj2 (String.eqb_neq _ _)) in H. rewrite H. apply orb_true_r. }
  split; [done|]. intros Hout. rewrite HW. cbn [fst snd].
  unfold LogSink.StdoutWrite. rewrite Hout. done.
Qed.

Lemma C6_rotation_failure_falls_back_to_stdout_witness :
  let now :=
    {| Time.year := 2025; Time.month := 1; Time.day := 2;
       Time.hour := 0; Time.minute := 0; Time.second := 1; Time.offset := 0 |} in
  let os :=
    {| LogSink.mkdirErr := fun _ => None;
       LogSink.openErr := fun _ => Some "permission denied"%string;
       LogSink.writeErr := fun _ => None; LogSink.stdoutErr := None;
       LogSink.files := ∅; LogSink.handles := []; LogSink.stdout := EmptyString |} in
  let w := LogSink.newDailyFileWriter "logs" "access" in
  let line := "[INFO] access: ip=203.0.113.7" +:+ String "010" EmptyString in
  LogSink.Write now line w os = (fst (LogSink.StdoutWrite line os), w, snd (LogSink.StdoutWrite line os)) /\
  LogSink.stdout (snd (LogSink.Write now line w os)) = line.
Proof.
  intros now os w line.
  destruct (C6_rotation_failure_falls_back_to_stdout now line w os "permission denied")
    as [H1 H2]; [by left|right; by split|].
  split; [exact H1|]. destruct (H2 eq_refl) as (_ & -> & _). reflexivity.
Defined.

(** ** The buffer pool *)

(** C9 (the code departs from the claim): a buffer given back with [Put]
    is stored cut to length zero, and the [Get] that takes it from the pool
    hands it out as it is stored: its length is 0, not 32768; only its
    capacity is kept. *)
Theorem C9_recycled_buffer_is_empty (b : Pool.slice) (p : Pool.syncPool) :
  b ≠ Pool.Nil ->
  Pool.Get (Some 0%nat) (Pool.Put b p) = (Pool.reslice0 b, p) /\
  Pool.len (fst (Pool.Get (Some 0%nat) (Pool.Put b p))) = 0%nat /\
  Pool.cap (fst (Pool.Get (Some 0%nat) (Pool.Put b p))) = Pool.cap b.
Proof.
  intros Hb. destruct b as [|a n]; [done|].
  assert (Pool.Get (Some 0%nat) (Pool.Put (Pool.Slice a n) p) = (Pool.reslice0 (Pool.Slice a n), p)) as ->.
  { unfold Pool.Get, Pool.Put, Pool.syncGet, Pool.syncPut. cbn. by destruct p. }
  done.
Qed.

Lemma C9_recycled_buffer_is_empty_witness :
  let fresh := fst (Pool.Get None Pool.newPool) in
  Z.of_nat (Pool.len fresh) = 32768 /\
  Pool.len (fst (Pool.Get (Some 0%nat) (Pool.Put fresh Pool.newPool))) = 0%nat.
Proof.
  intros fresh. split; [vm_compute; reflexivity|].
  apply (C9_recycled_buffer_is_empty fresh Pool.newPool). discriminate.
Defined.

(** ** More on the limiter *)

Section LimiterMore.

Implicit Types (rl : ipRateLimiter) (b : bucket) (ip : string) (tr : list (Z * string)).






End LimiterMore.



Section Refill.
Implicit Types (rl : ipRateLimiter) (b : bucket) (ip : string) (tr : list (Z * string)).




End Refill.



Section LimiterEdges.

Implicit Types (rl : ipRateLimiter) (b : bucket) (ip : string) (tr : list (Z * string)).

Lemma Allow_dom now ip rl :
  dom (buckets (snd (Allow now ip rl))) = {[ip]} ∪ dom (buckets rl).
Proof.
  unfold Allow. destruct (buckets rl !! ip) as [b|].
  - destruct (Qltb _ 1); proj; apply dom_insert_L.
  - proj. apply dom_insert_L.
Qed.

(** The refill does not take tokens from a bucket within its capacity. *)
Lemma refill_ge rl now b :
  (0 <= rate rl)%Q -> (tokens b <= limit rl)%Q ->
  (tokens b <= tokens (refill rl now b))%Q.
Proof.
  intros Hr Hl. unfold refill. destruct (Qltb 0 _) eqn:He; [|lra].
  apply Qltb_lt in He.
  assert (0 <= Time.Seconds (Time.Sub now (last b)) * rate rl)%Q as Hadd.
  { apply Qmult_le_0_compat; [by apply Qlt_le_weak|done]. }
  proj. destruct (Qltb (limit rl) _); lra.
Qed.

(** Under a capacity of zero or less, a bucket below one token stays
    there. *)
Lemma Allow_starved now ip rl b :
  (limit rl <= 0)%Q -> (rate rl <= 0)%Q ->
  buckets rl !! ip = Some b -> (tokens b < 1)%Q ->
  fst (Allow now ip rl) = false /\
  exists b', buckets (snd (Allow now ip rl)) !! ip = Some b' /\ (tokens b' < 1)%Q.
Proof.
  intros Hl Hr Hb Ht.
  assert (tokens (refill rl now b) < 1)%Q as Hre.
  { unfold refill. destruct (Qltb 0 _) eqn:He; [|done].
    apply Qltb_lt in He. proj.
    destruct (Qltb (limit rl) _); [lra|].
    set (e := Time.Seconds (Time.Sub now (last b))) in *.
    assert (0 <= e * - rate rl)%Q as Hneg by (apply Qmult_le_0_compat; lra).
    assert (e * - rate rl == - (e * rate rl))%Q as E by ring.
    lra. }
  pose proof (Allow_seen now ip rl b Hb) as Hs.
  destruct (Qltb _ 1) eqn:Hlt.
  - destruct Hs as [-> ->]. eauto.
  - apply Qltb_ge in Hlt. lra.
Qed.

Lemma results_starved ip tr rl b :
  (limit rl <= 0)%Q -> (rate rl <= 0)%Q ->
  buckets rl !! ip = Some b -> (tokens b < 1)%Q ->
  results_for ip rl tr = repeat false (length (calls_of ip tr)).
Proof.
  revert rl b. induction tr as [|[now ip'] tr IH]; intros rl b Hl Hr Hb Ht; [done|].
  destruct (decide (ip' = ip)) as [->|Hne].
  - rewrite calls_of_cons_eq, results_for_cons_eq. cbn [length repeat].
    destruct (Allow_starved now ip rl b Hl Hr Hb Ht) as (-> & b' & Hb' & Ht').
    f_equal. apply (IH _ b'); [by rewrite Allow_limit|by rewrite Allow_rate|done..].
  - rewrite calls_of_cons_ne, results_for_cons_ne by done.
    apply (IH _ b); [by rewrite Allow_limit|by rewrite Allow_rate| |done].
    by rewrite Allow_other.
Qed.

Lemma results_starved_fresh ip tr rl :
  (limit rl <= 0)%Q -> (rate rl <= 0)%Q -> buckets rl !! ip = None ->
  results_for ip rl tr =
  match calls_of ip tr with
  | [] => []
  | _ :: l => true :: repeat false (length l)
  end.
Proof.
  revert rl. induction tr as [|[now ip'] tr IH]; intros rl Hl Hr Hb; [done|].
  destruct (decide (ip' = ip)) as [->|Hne].
  - rewrite calls_of_cons_eq, results_for_cons_eq.
    destruct (Allow_fresh now ip rl Hb) as [-> Hb'].
    f_equal.
    apply (results_starved ip tr _ {| tokens := (limit rl - 1)%Q; last := now |});
      [by rewrite Allow_limit|by rewrite Allow_rate|done|].
    proj. lra.
  - rewrite calls_of_cons_ne, results_for_cons_ne by done.
    apply IH; [by rewrite Allow_limit|by rewrite Allow_rate|].
    by rewrite Allow_other.
Qed.

End LimiterEdges.

(** X3: the limiter never removes a bucket: after a run the addresses with
    a bucket are those that had one before and those for which [Allow] was
    called. *)
Theorem buckets_only_grow (rl : ipRateLimiter) (tr : list (Z * string)) :
  dom (buckets (final rl tr)) = dom (buckets rl) ∪ list_to_set (snd <$> tr).
Proof.
  revert rl. induction tr as [|[now ip] tr IH]; intros rl.
  - cbn [fmap list_fmap list_to_set]. unfold final. cbn [run snd].
    by rewrite union_empty_r_L.
  - rewrite final_cons, IH, Allow_dom, fmap_cons. cbn [snd list_to_set].
    by rewrite (comm_L (∪) {[ip]} (dom (buckets rl))), <- (assoc_L (∪)).
Qed.

(** X4: [Allow] rejects a call only for an address that has a bucket, and
    only when that bucket, refilled, holds less than one token; the bucket it
    leaves is the refilled one, which under a policy whose rate is not
    negative holds no fewer tokens than before the call: a rejection is not
    debited. *)
Theorem Allow_rejection_is_free (now : Z) (ip : string) (rl : ipRateLimiter) :
  fst (Allow now ip rl) = false ->
  exists b,
    buckets rl !! ip = Some b /\
    buckets (snd (Allow now ip rl)) !! ip = Some (refill rl now b) /\
    (tokens (refill rl now b) < 1)%Q /\
    ((0 <= rate rl)%Q -> (tokens b <= limit rl)%Q ->
     (tokens b <= tokens (refill rl now b))%Q).
Proof.
  intros Hrej. destruct (buckets rl !! ip) as [b|] eqn:Hb.
  - exists b. pose proof (Allow_seen now ip rl b Hb) as Hs.
    destruct (Qltb _ 1) eqn:Hlt; destruct Hs as [Hres Hb']; [|congruence].
    apply Qltb_lt in Hlt. repeat split; [done|done|]. apply refill_ge.
  - destruct (Allow_fresh now ip rl Hb) as [Hres _]. congruence.
Qed.

Lemma Allow_rejection_is_free_witness :
  let ip := "203.0.113.7"%string in
  let rl := final defaultIPLimiter (repeat (0, ip) 300) in
  exists b,
    buckets rl !! ip = Some b /\
    buckets (snd (Allow 5 ip rl)) !! ip = Some (refill rl 5 b) /\
    (tokens (refill rl 5 b) < 1)%Q.
Proof.
  intros ip rl.
  destruct (Allow_rejection_is_free 5 ip rl) as (b & H1 & H2 & H3 & _).
  - vm_compute. reflexivity.
  - exists b. by repeat split.
Defined.

(** X5: a limiter built with a capacity of zero or less still admits the
    first call of every address (the bucket is created with the request
    already debited) and rejects every later call of that address, whenever
    it comes. *)
Theorem nonpositive_capacity_admits_once (maxReq : Z) (window : Time.Duration)
    (ip : string) (tr : list (Z * string)) :
  maxReq <= 0 ->
  results_for ip (newIPRateLimiter maxReq window) tr =
  match calls_of ip tr with
  | [] => []
  | _ :: l => true :: repeat false (length l)
  end.
Proof.
  intros Hm. apply results_starved_fresh.
  - unfold newIPRateLimiter. proj. change 0%Q with (inject_Z 0). by rewrite <- Zle_Qle.
  - unfold newIPRateLimiter. proj.
    set (w := if window <=? 0 then _ else _).
    assert (0 < w) as Hw by (subst w; destruct (Z.leb_spec window 0); [done|lia]).
    apply (proj2 (Seconds_pos _)) in Hw.
    assert (inject_Z maxReq <= 0)%Q as H0.
    { change 0%Q with (inject_Z 0). by rewrite <- Zle_Qle. }
    apply Qle_shift_div_r; [done|]. lra.
  - apply lookup_empty.
Qed.

Lemma nonpositive_capacity_admits_once_witness :
  results_for "203.0.113.7" (newIPRateLimiter 0 (10 * Time.Second))
    [(0, "203.0.113.7"); (1, "198.51.100.9"); (3600000000000, "203.0.113.7")]%string
  = [true; false].
Proof.
  apply (nonpositive_capacity_admits_once 0 (10 * Time.Second) "203.0.113.7"
           [(0, "203.0.113.7"); (1, "198.51.100.9"); (3600000000000, "203.0.113.7")]%string).
  lia.
Defined.

(** ** More on the request forwarder *)

Section ForwardedHeader.

Implicit Types (h : Header) (k : string) (req out : Request).

Lemma maskHeader_User_Agent h :
  maskHeader h !! "User-Agent"%string = Some [browserUserAgent].
Proof.
  unfold maskHeader.
  destruct (String.eqb _ ""); destruct (String.eqb _ "");
    repeat (rewrite lookup_Set_ne by key_ne);
    change "User-Agent"%string with (CanonicalMIMEHeaderKey "User-Agent") at 2;
    apply lookup_Set_eq.
Qed.

End ForwardedHeader.

(** X6: the request that is forwarded has none of the headers X-Real-IP,
    X-Forwarded-Host, X-Forwarded-Proto, Forwarded, Via and
    Proxy-Connection, whatever the inbound request carried. *)
Theorem forwarded_without_other_proxy_headers (req out : Request) (k : string) :
  outbound req = Some out ->
  k ∈ ["X-Real-Ip"; "X-Forwarded-Host"; "X-Forwarded-Proto"; "Forwarded"; "Via";
       "Proxy-Connection"]%string ->
  ReqHeader out !! k = None.
Proof.
  intros Hout Hk. rewrite (outbound_header req out Hout).
  assert (k ∈ CanonicalMIMEHeaderKey <$> strippedHeaders) as Hs.
  { rewrite strippedHeaders_canonical.
    repeat (apply elem_of_cons in Hk as [->|Hk];
            [repeat first [apply list_elem_of_here|apply list_elem_of_further]|]).
    by apply elem_of_nil in Hk. }
  rewrite finishHeader_lookup.
  - rewrite removeHopByHopHeaders_lookup.
    destruct (bool_decide _); [done|]. destruct (bool_decide _); [done|].
    by apply maskHeader_stripped.
  - intros ->. revert Hk. key_notin.
  - intros ->. revert Hk. key_notin.
  - intros ->. revert Hk. key_notin.
  - intros ->. revert Hk. key_notin.
  - intros ->. revert Hk. key_notin.
Qed.

Lemma forwarded_without_other_proxy_headers_witness :
  let req :=
    {| Method := "GET";
       ReqURL := {| Scheme := ""; URLHost := ""; Path := "/m"; RawQuery := "" |};
       Host := "proxy.example";
       ReqHeader := {[ "Via"%string := ["1.1 edge"%string];
                       "X-Real-Ip"%string := ["198.51.100.9"%string] ]};
       RemoteAddr := "203.0.113.7:51234" |} in
  exists out, outbound req = Some out /\
              ReqHeader out !! "Via"%string = None /\
              ReqHeader out !! "X-Real-Ip"%string = None.
Proof.
  intros req. eexists. split; [vm_compute; reflexivity|]. split.
  - eapply (forwarded_without_other_proxy_headers req); [vm_compute; reflexivity|].
    repeat first [apply list_elem_of_here|apply list_elem_of_further].
  - eapply (forwarded_without_other_proxy_headers req); [vm_compute; reflexivity|].
    repeat first [apply list_elem_of_here|apply list_elem_of_further].
Defined.

(** X7: the user agent of the client is never forwarded: the request that
    is forwarded carries the fixed browser user agent, or an empty one when
    the inbound [Connection] header names [User-Agent] (the proxy then
    removes the header of the director and the library puts an empty one). *)
Theorem forwarded_user_agent_is_masked (req out : Request) :
  outbound req = Some out ->
  ReqHeader out !! "User-Agent"%string =
  if bool_decide ("User-Agent"%string ∈
                  CanonicalMIMEHeaderKey <$> connectionTokens (ReqHeader req))
  then Some [EmptyString] else Some [browserUserAgent].
Proof.
  intros Hout. rewrite (outbound_header req out Hout). unfold finishHeader.
  set (h := addForwardedFor _ _).
  assert (h !! "User-Agent"%string =
          removeHopByHopHeaders (maskHeader (ReqHeader req)) !! "User-Agent"%string) as Hh.
  { subst h. by rewrite addForwardedFor_lookup_ne, restoreUpgrade_lookup,
      advertiseTrailers_lookup by done. }
  rewrite removeHopByHopHeaders_lookup, connectionTokens_mask in Hh.
  replace (bool_decide ("User-Agent"%string ∈ CanonicalMIMEHeaderKey <$> hopHeaders))
    with false in Hh by (vm_compute; reflexivity).
  unfold defaultUserAgent. rewrite Hh.
  destruct (bool_decide _).
  - change "User-Agent"%string with (CanonicalMIMEHeaderKey "User-Agent") at 2.
    apply lookup_Set_eq.
  - rewrite maskHeader_User_Agent. rewrite Hh. apply maskHeader_User_Agent.
Qed.

Lemma forwarded_user_agent_is_masked_witness :
  let req :=
    {| Method := "GET";
       ReqURL := {| Scheme := ""; URLHost := ""; Path := "/m"; RawQuery := "" |};
       Host := "proxy.example";
       ReqHeader := {[ "User-Agent"%string := ["python-requests/2.31"%string] ]};
       RemoteAddr := "203.0.113.7:51234" |} in
  exists out, outbound req = Some out /\
              ReqHeader out !! "User-Agent"%string = Some [browserUserAgent].
Proof.
  intros req. eexists. split; [vm_compute; reflexivity|].
  rewrite (forwarded_user_agent_is_masked req); [|vm_compute; reflexivity].
  vm_compute. reflexivity.
Defined.

(** X8: every other header passes through: a header whose canonical key is
    not one the director deletes or sets, not a hop-by-hop header, not named
    in the inbound [Connection] header and not [X-Forwarded-For], is in the
    forwarded request exactly as in the inbound request, present or absent. *)
Theorem forwarded_header_passes_through (req out : Request) (k : string) :
  outbound req = Some out ->
  k ∉ CanonicalMIMEHeaderKey <$> strippedHeaders ->
  k ∉ ["User-Agent"; "Accept-Language"; "Accept-Encoding"]%string ->
  k ∉ CanonicalMIMEHeaderKey <$> hopHeaders ->
  k ∉ CanonicalMIMEHeaderKey <$> connectionTokens (ReqHeader req) ->
  ReqHeader out !! k = ReqHeader req !! k.
Proof.
  intros Hout Hs Hset Hhop Hconn. rewrite (outbound_header req out Hout).
  assert (k ≠ "Te"%string /\ k ≠ "Connection"%string /\ k ≠ "Upgrade"%string)
    as (? & ? & ?).
  { repeat split; intros ->; apply Hhop;
      refine (bool_decide_unpack _ _); vm_compute; exact I. }
  assert (k ≠ "X-Forwarded-For"%string).
  { intros ->. apply Hs. refine (bool_decide_unpack _ _). vm_compute. exact I. }
  assert (k ≠ "User-Agent"%string /\ k ≠ "Accept-Language"%string /\
          k ≠ "Accept-Encoding"%string) as (? & ? & ?).
  { repeat split; intros ->; apply Hset;
      repeat first [apply list_elem_of_here|apply list_elem_of_further]. }
  rewrite finishHeader_lookup by done.
  rewrite removeHopByHopHeaders_lookup, connectionTokens_mask.
  rewrite (bool_decide_eq_false_2 _ Hhop), (bool_decide_eq_false_2 _ Hconn).
  by apply maskHeader_other.
Qed.

Lemma forwarded_header_passes_through_witness :
  let req :=
    {| Method := "GET";
       ReqURL := {| Scheme := ""; URLHost := ""; Path := "/m"; RawQuery := "" |};
       Host := "proxy.example";
       ReqHeader := {[ "Cookie"%string := ["NID=511"%string] ]};
       RemoteAddr := "203.0.113.7:51234" |} in
  exists out, outbound req = Some out /\
              ReqHeader out !! "Cookie"%string = Some ["NID=511"%string].
Proof.
  intros req. eexists. split; [vm_compute; reflexivity|].
  rewrite (forwarded_header_passes_through req _ "Cookie");
    [vm_compute; reflexivity|vm_compute; reflexivity|key_notin..].
Defined.

(** ** More on the middleware chain *)

Section MiddlewareMore.

Variable Quote : string -> string.

Implicit Types (r : Request) (env : Env) (st : State).

Lemma handler_response r env st :
  fst (handler Quote r env st) = fst (rateLimitMiddleware mux r env st).
Proof. unfold handler. apply loggingMiddleware_response. Qed.

Lemma handler_state r env st :
  limiter (snd (handler Quote r env st)) = limiter (snd (rateLimitMiddleware mux r env st)) /\
  errorLog (snd (handler Quote r env st)) = errorLog (snd (rateLimitMiddleware mux r env st)).
Proof.
  unfold handler, loggingMiddleware.
  destruct (rateLimitMiddleware mux r env st) as [res st'].
  by destruct (accessLogCh st').
Qed.

Lemma rateLimitMiddleware_rejected r env st :
  fst (Allow (now env) (clientIP r) (limiter st)) = false ->
  rateLimitMiddleware mux r env st =
  (plainText StatusTooManyRequests ("Too Many Requests" +:+ String "010" EmptyString),
   {| limiter := snd (Allow (now env) (clientIP r) (limiter st));
      accessLogCh := accessLogCh st; errorLog := errorLog st |}).
Proof.
  intros H. unfold rateLimitMiddleware.
  destruct (Allow _ _ _) as [ok rl]. cbn [fst snd] in *. by subst ok.
Qed.

Lemma rateLimitMiddleware_admitted r env st :
  fst (Allow (now env) (clientIP r) (limiter st)) = true ->
  rateLimitMiddleware mux r env st =
  mux r env {| limiter := snd (Allow (now env) (clientIP r) (limiter st));
               accessLogCh := accessLogCh st; errorLog := errorLog st |}.
Proof.
  intros H. unfold rateLimitMiddleware.
  destruct (Allow _ _ _) as [ok rl]. cbn [fst snd] in *. by subst ok.
Qed.

End MiddlewareMore.



(** X10: a request that the limiter rejects is answered 429 with the body
    [Too Many Requests], on every path, and is not forwarded: the reply and
    the error log do not depend on the upstream, and the error log is left
    as it was. *)
Theorem rejected_request_is_not_forwarded (Quote : string -> string)
    (r : Request) (env : Env) (st : State) :
  fst (Allow (now env) (clientIP r) (limiter st)) = false ->
  fst (handler Quote r env st) =
    plainText 429 ("Too Many Requests" +:+ String "010" EmptyString) /\
  errorLog (snd (handler Quote r env st)) = errorLog st.
Proof.
  intros Hrej.
  rewrite handler_response, (proj2 (handler_state Quote r env st)).
  by rewrite (rateLimitMiddleware_rejected r env st Hrej).
Qed.

Lemma rejected_request_is_not_forwarded_witness :
  let r :=
    {| Method := "GET";
       ReqURL := {| Scheme := ""; URLHost := ""; Path := "/m"; RawQuery := "" |};
       Host := "proxy.example"; ReqHeader := ∅; RemoteAddr := "203.0.113.7:51234" |} in
  let env :=
    {| now := 0;
       wall := {| Time.year := 2025; Time.month := 1; Time.day := 1;
                  Time.hour := 12; Time.minute := 0; Time.second := 0;
                  Time.offset := 0 |};
       upstream := fun _ => inr "unreachable"%string |} in
  let st := snd (serve quotePlain initial (repeat (r, env) 300)) in
  StatusCode (fst (handler quotePlain r env st)) = 429.
Proof.
  intros r env st.
  destruct (rejected_request_is_not_forwarded quotePlain r env st) as [-> _];
    [vm_compute; reflexivity|reflexivity].
Defined.



(** ** Trimming *)

Ltac split_match :=
  repeat match goal with
  | |- context [match ?x with _ => _ end] => is_var x; destruct x
  end.

Section Trim.

Lemma isSpaceRune_spec (bs : list N) : isSpaceRune bs = spaceRune bs.
Proof.
  destruct bs as [|a [|b [|c [|d bs]]]]; [reflexivity| | | |];
    unfold isSpaceRune, spaceRune; split_match; try reflexivity.
  all: try (cbn; rewrite ?andb_false_r; reflexivity).
  repeat match goal with |- context [(c =? ?n)%N] => destruct (c =? n)%N end;
    destruct (128 <=? c)%N, (c <=? 138)%N; reflexivity.
Qed.

Lemma plainByte_code (c : ascii) :
  plainByte c = true -> (33 <= code c <= 126)%N /\ c ≠ ","%char.
Proof.
  unfold plainByte. intros H.
  apply andb_prop in H as [H Hc]. apply andb_prop in H as [H1 H2].
  apply N.leb_le in H1. apply N.leb_le in H2.
  split; [done|]. intros ->. discriminate.
Qed.

Ltac bool_lia :=
  repeat match goal with
  | |- context [(?x <=? ?y)%N] => destruct (N.leb_spec x y)
  | |- context [(?x =? ?y)%N] => destruct (N.eqb_spec x y)
  end; cbn [andb orb]; try reflexivity; lia.

(** No white-space rune starts with a plain byte, and none ends with
    one. *)
Lemma isSpaceRune_plain_first (a : N) (rest : list N) :
  (33 <= a <= 126)%N -> isSpaceRune (a :: rest) = false.
Proof.
  intros H. rewrite isSpaceRune_spec.
  destruct rest as [|b [|c [|d rest]]]; [| | |reflexivity]; unfold spaceRune; bool_lia.
Qed.

Lemma isSpaceRune_plain_last (a : N) (front : list N) :
  (33 <= a <= 126)%N -> isSpaceRune (front ++ [a]) = false.
Proof.
  intros H. rewrite isSpaceRune_spec.
  destruct front as [|b [|c [|d front]]]; cbn [app].
  - unfold spaceRune. bool_lia.
  - unfold spaceRune. bool_lia.
  - unfold spaceRune. bool_lia.
  - by destruct front.
Qed.

Lemma trimRunes_plain (back : bool) (c : ascii) (s : string) :
  plainByte c = true -> trimRunes back (String c s) = String c s.
Proof.
  intros Hc. apply plainByte_code in Hc as [Hc _].
  assert (forall bs : list ascii,
            isSpaceRune (code <$> (if back then rev (c :: bs) else c :: bs)) = false) as H.
  { intros bs. destruct back.
    - cbn [rev]. rewrite fmap_app. by apply isSpaceRune_plain_last.
    - rewrite fmap_cons. by apply isSpaceRune_plain_first. }
  cbn [trimRunes]. rewrite (H []).
  destruct s as [|c1 s]; [done|]. rewrite (H [c1]).
  destruct s as [|c2 s]; [done|]. by rewrite (H [c1; c2]).
Qed.

Lemma allBytes_rev_app (f : ascii -> bool) (s acc : string) :
  allBytes f s = true -> allBytes f acc = true -> allBytes f (String.rev_app s acc) = true.
Proof.
  revert acc. induction s as [|c s IH]; intros acc Hs Hacc; [done|].
  cbn [allBytes] in Hs. apply andb_prop in Hs as [Hc Hs].
  cbn [String.rev_app]. apply IH; [done|]. cbn [allBytes]. by rewrite Hc.
Qed.

Lemma rev_app_rev_app (s acc acc' : string) :
  String.rev_app (String.rev_app s acc) acc' = String.rev_app acc (s +:+ acc').
Proof.
  revert acc acc'. induction s as [|c s IH]; intros acc acc'; [done|].
  cbn [String.rev_app]. rewrite IH. cbn [String.rev_app]. reflexivity.
Qed.

Lemma append_empty_r (s : string) : s +:+ EmptyString = s.
Proof.
  induction s as [|c s IH]; [done|].
  change (String c s +:+ EmptyString) with (String c (s +:+ EmptyString)).
  by rewrite IH.
Qed.

Lemma rev_rev (s : string) : String.rev (String.rev s) = s.
Proof.
  unfold String.rev. rewrite rev_app_rev_app. cbn [String.rev_app].
  apply append_empty_r.
Qed.

Lemma trimRunes_all_plain (back : bool) (s : string) :
  allBytes plainByte s = true -> trimRunes back s = s.
Proof.
  destruct s as [|c s]; [done|]. cbn [allBytes]. intros [Hc _]%andb_prop.
  by apply trimRunes_plain.
Qed.

(** A string of plain bytes has no white space to trim and no comma to
    split at. *)
Lemma TrimSpace_plain (s : string) : allBytes plainByte s = true -> TrimSpace s = s.
Proof.
  intros H. unfold TrimSpace. rewrite (trimRunes_all_plain false s H).
  rewrite trimRunes_all_plain; [apply rev_rev|].
  by apply allBytes_rev_app.
Qed.

Lemma IndexByte_plain (s : string) :
  allBytes plainByte s = true -> IndexByte s "," = None.
Proof.
  induction s as [|c s IH]; [done|]. cbn [allBytes IndexByte].
  intros [Hc Hs]%andb_prop. apply plainByte_code in Hc as [_ Hc].
  apply (proj2 (Ascii.eqb_neq _ _)) in Hc. rewrite Hc, (IH Hs). done.
Qed.

End Trim.

(** X12: the limiter key is what the client writes in [X-Forwarded-For]: a
    request whose first [X-Forwarded-For] value is a non-empty string of
    printable ASCII bytes without space and comma is keyed by that string,
    whatever its remote address; and when the limiter has no bucket under a
    request's key, [Allow] admits it, so the request is not answered by the
    limiter. *)
Theorem forwarded_for_chooses_the_key (r : Request) (env : Env) (st : State) (v : string) :
  Get (ReqHeader r) "X-Forwarded-For" = v ->
  v ≠ EmptyString -> allBytes plainByte v = true ->
  clientIP r = v /\
  (buckets (limiter st) !! v = None ->
   fst (Allow (now env) (clientIP r) (limiter st)) = true /\
   rateLimitMiddleware mux r env st =
   mux r env {| limiter := snd (Allow (now env) v (limiter st));
                accessLogCh := accessLogCh st; errorLog := errorLog st |}).
Proof.
  intros Hget Hne Hplain.
  assert (clientIP r = v) as Hip.
  { unfold clientIP. rewrite Hget.
    apply (proj2 (String.eqb_neq _ _)) in Hne. rewrite Hne. cbn [negb].
    rewrite hd_Split. unfold beforeByte. rewrite (IndexByte_plain v Hplain).
    by apply TrimSpace_plain. }
  split; [done|]. intros Hfresh.
  assert (fst (Allow (now env) (clientIP r) (limiter st)) = true) as Hok.
  { rewrite Hip. by apply Allow_fresh. }
  split; [done|]. rewrite (rateLimitMiddleware_admitted r env st Hok). by rewrite Hip.
Qed.

Lemma forwarded_for_chooses_the_key_witness :
  let env :=
    {| now := 0;
       wall := {| Time.year := 2025; Time.month := 1; Time.day := 1;
                  Time.hour := 12; Time.minute := 0; Time.second := 0;
                  Time.offset := 0 |};
       upstream := fun _ => inr "unreachable"%string |} in
  let plain :=
    {| Method := "GET";
       ReqURL := {| Scheme := ""; URLHost := ""; Path := "/m"; RawQuery := "" |};
       Host := "proxy.example"; ReqHeader := ∅; RemoteAddr := "203.0.113.7:51234" |} in
  let spoofed :=
    {| Method := "GET";
       ReqURL := {| Scheme := ""; URLHost := ""; Path := "/m"; RawQuery := "" |};
       Host := "proxy.example";
       ReqHeader := {[ "X-Forwarded-For"%string := ["198.51.100.77"%string] ]};
       RemoteAddr := "203.0.113.7:51234" |} in
  let st := snd (serve quotePlain initial (repeat (plain, env) 300)) in
  StatusCode (fst (handler quotePlain plain env st)) = 429 /\
  clientIP spoofed = "198.51.100.77"%string /\
  fst (Allow (now env) (clientIP spoofed) (limiter st)) = true.
Proof.
  intros env plain spoofed st. split; [vm_compute; reflexivity|].
  destruct (forwarded_for_chooses_the_key spoofed env st "198.51.100.77")
    as [H1 H2]; [vm_compute; reflexivity|discriminate|vm_compute; reflexivity|].
  split; [exact H1|]. apply H2. vm_compute. reflexivity.
Defined.

(** ** The limiter inside the server *)

Section ServeLimiter.

Variable Quote : string -> string.

Lemma serve_limiter (st : State) (reqs : list (Request * Env)) :
  limiter (snd (serve Quote st reqs)) = final (limiter st) (limiterCall <$> reqs).
Proof.
  revert st. induction reqs as [|[r env] reqs IH]; intros st; [done|].
  cbn [serve snd]. rewrite IH, fmap_cons.
  change (limiterCall (r, env)) with (now env, clientIP r). rewrite final_cons.
  by rewrite (proj1 (handler_state Quote r env st)), rateLimitMiddleware_limiter.
Qed.

Lemma calls_of_all (ip : string) (tr : list (Z * string)) :
  Forall (fun c => snd c = ip) tr -> calls_of ip tr = tr.
Proof.
  induction 1 as [|[now ip'] tr Hc _ IH]; [done|]. cbn [snd] in Hc. subst ip'.
  by rewrite calls_of_cons_eq, IH.
Qed.

Lemma results_for_all (ip : string) (rl : ipRateLimiter) (tr : list (Z * string)) :
  Forall (fun c => snd c = ip) tr -> results_for ip rl tr = fst (run rl tr).
Proof.
  intros H. revert rl. induction H as [|[now ip'] tr Hc _ IH]; intros rl; [done|].
  cbn [snd] in Hc. subst ip'. rewrite results_for_cons_eq, IH. reflexivity.
Qed.

End ServeLimiter.

(** X13: end to end, from the start of the process: when 301 requests with
    the same client address arrive, none later than a thirtieth of a second
    after the first, the limiter admits each of the first 300, and the 301st
    is answered 429 with the body [Too Many Requests]. *)
Theorem burst_of_301_requests (Quote : string -> string)
    (reqs : list (Request * Env)) (r : Request) (env : Env) (ip : string) (t0 : Z) :
  length reqs = 300%nat ->
  hd_error (limiterCall <$> reqs) = Some (t0, ip) ->
  Forall (fun q => clientIP (fst q) = ip /\ near t0 (now (snd q))) (reqs ++ [(r, env)]) ->
  fst (run defaultIPLimiter (limiterCall <$> reqs)) = repeat true 300 /\
  fst (handler Quote r env (snd (serve Quote initial reqs))) =
    plainText 429 ("Too Many Requests" +:+ String "010" EmptyString).
Proof.
  intros Hlen Hhd Hall. apply Forall_app in Hall as [Hreqs Hlast].
  apply Forall_cons in Hlast as [[Hip Hnear] _]. cbn [fst snd] in Hip, Hnear.
  set (tr := limiterCall <$> reqs) in *.
  assert (Forall (fun c => snd c = ip) tr) as Hips.
  { subst tr. apply Forall_fmap. eapply Forall_impl; [exact Hreqs|]. by intros q [? _]. }
  assert (Forall (fun c => near t0 (fst c)) tr) as Hnears.
  { subst tr. apply Forall_fmap. eapply Forall_impl; [exact Hreqs|]. by intros q [_ ?]. }
  assert (length tr = 300%nat) as Htr by (subst tr; by rewrite length_fmap).
  assert (default_policy defaultIPLimiter) as Hp by done.
  assert (buckets defaultIPLimiter !! ip = None) as Hb by apply lookup_empty.
  split.
  - rewrite <- (results_for_all ip) by done.
    pose proof (results_fresh ip tr defaultIPLimiter Hp Hb) as Hres.
    rewrite (calls_of_all ip tr Hips), Htr in Hres.
    specialize (Hres ltac:(lia)). apply Forall_true_repeat in Hres.
    by rewrite results_for_length, (calls_of_all ip tr Hips), Htr in Hres.
  - apply rejected_request_is_not_forwarded.
    rewrite serve_limiter. fold tr. rewrite Hip.
    destruct (final_burst_fresh ip t0 tr defaultIPLimiter Hp Hb) as (b & Hfb & Hinv).
    + by rewrite (calls_of_all ip tr Hips).
    + rewrite (calls_of_all ip tr Hips), Htr. lia.
    + by rewrite (calls_of_all ip tr Hips).
    + rewrite (calls_of_all ip tr Hips), Htr in Hinv.
      apply (Allow_exhausted _ ip _ b t0); [|done|done|done].
      unfold default_policy. by rewrite final_limit, final_rate.
Qed.

Lemma burst_of_301_requests_witness :
  let r :=
    {| Method := "GET";
       ReqURL := {| Scheme := ""; URLHost := ""; Path := "/m"; RawQuery := "" |};
       Host := "proxy.example"; ReqHeader := ∅; RemoteAddr := "203.0.113.7:51234" |} in
  let env :=
    {| now := 0;
       wall := {| Time.year := 2025; Time.month := 1; Time.day := 1;
                  Time.hour := 12; Time.minute := 0; Time.second := 0;
                  Time.offset := 0 |};
       upstream := fun _ => inr "unreachable"%string |} in
  fst (handler quotePlain r env (snd (serve quotePlain initial (repeat (r, env) 300)))) =
  plainText 429 ("Too Many Requests" +:+ String "010" EmptyString).
Proof.
  intros r env.
  apply (proj2 (burst_of_301_requests quotePlain (repeat (r, env) 300) r env
                  "203.0.113.7" 0 (List.repeat_length _ _) eq_refl
                  ltac:(apply Forall_app; split;
                        [apply Forall_repeat|constructor; [|constructor]];
                        (split; [vm_compute; reflexivity|unfold near; cbn; lia])))).
Defined.

(** ** More on the log writer *)

Section LogRunsFacts.

Import LogSink LogRuns.

Implicit Types (w : dailyFileWriter) (os : World) (p date path f : string).

Lemma healthy_same os os' : same_oracles os os' -> healthy os -> healthy os'.
Proof. intros (E1 & E2 & E3 & _). unfold healthy. by rewrite E1, E2, E3. Qed.

Lemma contents_insert os path f (s : string) :
  default EmptyString (<[f := s]> (files os) !! path) =
  if String.eqb f path then s else contents os path.
Proof.
  unfold contents. destruct (String.eqb_spec f path) as [<-|Hne].
  - by rewrite lookup_insert_eq.
  - by rewrite lookup_insert_ne.
Qed.

Lemma FileWrite_ok f p os :
  writeErr os f = None ->
  fst (FileWrite f p os) = (Z.of_nat (String.length p), None) /\
  same_oracles os (snd (FileWrite f p os)) /\
  stdout (snd (FileWrite f p os)) = stdout os /\
  handles (snd (FileWrite f p os)) = handles os /\
  forall path,
    contents (snd (FileWrite f p os)) path =
    if String.eqb f path then contents os path +:+ p else contents os path.
Proof.
  intros H. unfold FileWrite. rewrite H. cbn [fst snd]. split_and!; try done.
  intros path. unfold contents at 1. cbn [files]. rewrite contents_insert.
  by destruct (String.eqb_spec f path) as [<-|Hne].
Qed.

Lemma OpenFile_ok path os :
  openErr os path = None ->
  fst (OpenFile path os) = inl path /\
  same_oracles os (snd (OpenFile path os)) /\
  stdout (snd (OpenFile path os)) = stdout os /\
  handles (snd (OpenFile path os)) = path :: handles os /\
  forall path', contents (snd (OpenFile path os)) path' = contents os path'.
Proof.
  intros H. unfold OpenFile. rewrite H. cbn [fst snd]. split_and!; try done.
  intros path'. unfold contents at 1. cbn [files]. rewrite contents_insert.
  by destruct (String.eqb_spec path path') as [<-|Hne].
Qed.

Lemma Close_ok f os :
  same_oracles os (Close f os) /\ stdout (Close f os) = stdout os /\
  handles (Close f os) = List.filter (fun h => negb (String.eqb h f)) (handles os) /\
  forall path, contents (Close f os) path = contents os path.
Proof. unfold Close. by split_and!. Qed.

(** A rotation that succeeds. *)
Lemma rotate_ok date w os :
  mkdirErr os (dir w) = None -> openErr os (logPath w date) = None ->
  exists os',
    rotate date w os =
      (None, {| dir := dir w; LogSink.prefix := LogSink.prefix w;
                currentDate := date; file := Some (logPath w date) |}, os') /\
    same_oracles os os' /\ stdout os' = stdout os /\
    handles os' =
      match file w with
      | Some old => List.filter (fun h => negb (String.eqb h old)) (logPath w date :: handles os)
      | None => logPath w date :: handles os
      end /\
    forall path, contents os' path = contents os path.
Proof.
  intros Hmk Hop. unfold rotate, MkdirAll. rewrite Hmk.
  destruct (OpenFile_ok (logPath w date) os Hop) as (E1 & E2 & E3 & E4 & E5).
  destruct (OpenFile (logPath w date) os) as [res os1]. cbn [fst snd] in *. subst res.
  destruct (file w) as [old|].
  - eexists. split; [reflexivity|].
    destruct (Close_ok old os1) as (F1 & F2 & F3 & F4).
    split_and!.
    + destruct E2 as (? & ? & ? & ?), F1 as (? & ? & ? & ?). unfold same_oracles.
      split_and!; congruence.
    + congruence.
    + by rewrite F3, E4.
    + intros path. by rewrite F4, E5.
  - eexists. split; [reflexivity|]. by split_and!.
Qed.

Lemma Write_same_day now p w os f :
  file w = Some f -> currentDate w = Time.FormatDate now ->
  Write now p w os = (fst (FileWrite f p os), w, snd (FileWrite f p os)).
Proof.
  intros Hf Hd. unfold Write. rewrite Hf, Hd, String.eqb_refl.
  rewrite bool_decide_eq_false_2 by done. cbn [negb orb].
  by destruct (FileWrite f p os).
Qed.

Lemma Write_rotating now p w os w' os' :
  file w = None \/ currentDate w ≠ Time.FormatDate now ->
  rotate (Time.FormatDate now) w os = (None, w', os') ->
  file w' = Some (logPath w (Time.FormatDate now)) ->
  Write now p w os =
    (fst (FileWrite (logPath w (Time.FormatDate now)) p os'), w',
     snd (FileWrite (logPath w (Time.FormatDate now)) p os')).
Proof.
  intros Hrot Hr Hf. unfold Write.
  replace (bool_decide (file w = None) ||
           negb (String.eqb (currentDate w) (Time.FormatDate now))) with true.
  - rewrite Hr, Hf. by destruct (FileWrite _ p os').
  - symmetry. destruct Hrot as [H|H].
    + by rewrite bool_decide_eq_true_2.
    + apply (proj2 (String.eqb_neq _ _)) in H. rewrite H. apply orb_true_r.
Qed.

Lemma need_rotation_dec now w :
  (file w = None \/ currentDate w ≠ Time.FormatDate now) \/
  (exists f, file w = Some f /\ currentDate w = Time.FormatDate now).
Proof.
  destruct (file w) as [f|]; [|by left; left].
  destruct (decide (currentDate w = Time.FormatDate now)); [right; eauto|by left; right].
Qed.

(** One write on a healthy system: the bytes go to the end of the file of
    the day and nowhere else, and the writer then holds that file. *)
Lemma Write_healthy now p w os :
  healthy os -> named w ->
  fst (fst (Write now p w os)) = (Z.of_nat (String.length p), None) /\
  dir (snd (fst (Write now p w os))) = dir w /\
  LogSink.prefix (snd (fst (Write now p w os))) = LogSink.prefix w /\
  currentDate (snd (fst (Write now p w os))) = Time.FormatDate now /\
  file (snd (fst (Write now p w os))) = Some (logPath w (Time.FormatDate now)) /\
  healthy (snd (Write now p w os)) /\
  stdout (snd (Write now p w os)) = stdout os /\
  (forall path,
     contents (snd (Write now p w os)) path =
     if String.eqb (logPath w (Time.FormatDate now)) path then contents os path +:+ p
     else contents os path).
Proof.
  intros Hh Hnamed. pose proof Hh as (Hmk & Hop & Hwr).
  destruct (need_rotation_dec now w) as [Hrot|(f & Hf & Hd)].
  - destruct (rotate_ok (Time.FormatDate now) w os (Hmk _) (Hop _))
      as (os' & Hr & E1 & E2 & _ & E4).
    rewrite (Write_rotating now p w os _ os' Hrot Hr eq_refl). cbn [fst snd].
    pose proof (healthy_same os os' E1 Hh) as Hh'. destruct Hh' as (_ & _ & Hwr').
    destruct (FileWrite_ok (logPath w (Time.FormatDate now)) p os' (Hwr' _))
      as (F1 & F2 & F3 & _ & F5).
    split_and!; try done.
    + apply (healthy_same os'); [done|]. by apply (healthy_same os).
    + congruence.
    + intros path. by rewrite F5, E4.
  - rewrite (Write_same_day now p w os f Hf Hd). cbn [fst snd].
    pose proof (Hnamed f Hf) as ->. rewrite Hd in *.
    destruct (FileWrite_ok (logPath w (Time.FormatDate now)) p os (Hwr _))
      as (F1 & F2 & F3 & _ & F5).
    split_and!; try done. by apply (healthy_same os).
Qed.

End LogRunsFacts.

Section LogRunsTheorems.

Import LogSink LogRuns.

Implicit Types (w : dailyFileWriter) (os : World) (p date path f : string).

Lemma length_append (a b : string) :
  String.length (a +:+ b) = (String.length a + String.length b)%nat.
Proof.
  induction a as [|x a IH]; [done|].
  change (String x a +:+ b) with (String x (a +:+ b)). cbn [String.length]. by rewrite IH.
Qed.

Lemma append_assoc (a b c : string) : (a +:+ b) +:+ c = a +:+ (b +:+ c).
Proof.
  induction a as [|x a IH]; [done|].
  change (String x ((a +:+ b) +:+ c) = String x (a +:+ (b +:+ c))). by rewrite IH.
Qed.

Lemma append_inj_l (a b c : string) : a +:+ b = a +:+ c -> b = c.
Proof.
  induction a as [|x a IH]; [done|].
  change (String x (a +:+ b) = String x (a +:+ c) -> b = c). intros [= H]. by apply IH.
Qed.

Lemma append_inj_r (a b s : string) : a +:+ s = b +:+ s -> a = b.
Proof.
  revert b. induction a as [|x a IH]; intros b H.
  - destruct b as [|y b]; [done|]. apply (f_equal String.length) in H.
    rewrite !length_append in H. cbn [String.length] in H. lia.
  - destruct b as [|y b].
    + apply (f_equal String.length) in H. rewrite !length_append in H.
      cbn [String.length] in H. lia.
    + change (String x (a +:+ s) = String y (b +:+ s)) in H. injection H as -> H.
      by rewrite (IH b H).
Qed.

(** The files of two dates are two files. *)
Lemma logPath_inj w date date' : logPath w date = logPath w date' -> date = date'.
Proof.
  unfold logPath. intros H.
  apply append_inj_l, append_inj_l, append_inj_l, append_inj_l in H.
  by apply append_inj_r in H.
Qed.

Lemma entries_same w w' path l :
  dir w' = dir w -> LogSink.prefix w' = LogSink.prefix w ->
  entries w' path l = entries w path l.
Proof.
  intros Hd Hp. induction l as [|[now p] l IH]; [done|].
  cbn [entries]. unfold logPath. by rewrite Hd, Hp, IH.
Qed.

Lemma entries_logPath w date l : entries w (logPath w date) l = entriesOn date l.
Proof.
  induction l as [|[now p] l IH]; [done|]. cbn [entries entriesOn]. rewrite IH.
  destruct (String.eqb_spec (Time.FormatDate now) date) as [->|Hne].
  - by rewrite String.eqb_refl.
  - destruct (String.eqb_spec (logPath w (Time.FormatDate now)) (logPath w date)) as [E|]; [|done].
    by apply logPath_inj in E.
Qed.

Lemma writes_cons now p l w os :
  writes ((now, p) :: l) w os =
  (fst (fst (Write now p w os)) ::
     fst (fst (writes l (snd (fst (Write now p w os))) (snd (Write now p w os)))),
   snd (fst (writes l (snd (fst (Write now p w os))) (snd (Write now p w os)))),
   snd (writes l (snd (fst (Write now p w os))) (snd (Write now p w os)))).
Proof.
  cbn [writes]. destruct (Write now p w os) as [[r w'] os']. cbn [fst snd].
  by destruct (writes l w' os') as [[rs w''] os''].
Qed.

Lemma writes_healthy l w os :
  healthy os -> named w ->
  fst (fst (writes l w os)) = (fun q => (Z.of_nat (String.length (snd q)), None)) <$> l /\
  dir (snd (fst (writes l w os))) = dir w /\
  LogSink.prefix (snd (fst (writes l w os))) = LogSink.prefix w /\
  stdout (snd (writes l w os)) = stdout os /\
  forall path, contents (snd (writes l w os)) path = contents os path +:+ entries w path l.
Proof.
  revert w os. induction l as [|[now p] l IH]; intros w os Hh Hn.
  { cbn [writes fst snd entries]. split_and!; try done.
    intros path. by rewrite append_empty_r. }
  rewrite writes_cons. cbn [fst snd].
  destruct (Write_healthy now p w os Hh Hn) as (R & D & P & C & F & H' & S & K).
  assert (named (snd (fst (Write now p w os)))) as Hn'.
  { intros f Hf. rewrite F in Hf. injection Hf as <-. rewrite C.
    unfold logPath. by rewrite D, P. }
  destruct (IH _ _ H' Hn') as (R' & D' & P' & S' & K').
  split_and!.
  - by rewrite R, R'.
  - congruence.
  - congruence.
  - congruence.
  - intros path. rewrite K', K, (entries_same w _ path l D P). cbn [entries].
    destruct (String.eqb _ path); [|done]. by rewrite append_assoc.
Qed.

(** One write keeps the writer in order, on every operating system: its
    directory and prefix are fixed, its open file is the one of its current
    date, and the handles it has opened and not closed are that file alone. *)
Lemma Write_keeps_order now p w os :
  named w -> handles os = held w ->
  dir (snd (fst (Write now p w os))) = dir w /\
  LogSink.prefix (snd (fst (Write now p w os))) = LogSink.prefix w /\
  named (snd (fst (Write now p w os))) /\
  handles (snd (Write now p w os)) = held (snd (fst (Write now p w os))).
Proof.
  intros Hn Hh.
  assert (forall os', handles (snd (StdoutWrite p os')) = handles os') as Hstd.
  { intros os'. unfold StdoutWrite. by destruct (stdoutErr os'). }
  assert (forall f os', handles (snd (FileWrite f p os')) = handles os') as Hfile.
  { intros f os'. unfold FileWrite. by destruct (writeErr os' f). }
  destruct (need_rotation_dec now w) as [Hrot|(f & Hf & Hd)].
  - destruct (fst (fst (rotate (Time.FormatDate now) w os))) as [err|] eqn:Hr.
    + pose proof (rotate_failure _ _ _ _ Hr) as Hr'.
      assert (Write now p w os = (fst (StdoutWrite p os), w, snd (StdoutWrite p os))) as ->.
      { unfold Write.
        replace (bool_decide (file w = None) ||
                 negb (String.eqb (currentDate w) (Time.FormatDate now))) with true.
        - rewrite Hr'. by destruct (StdoutWrite p os).
        - symmetry. destruct Hrot as [H|H].
          + by rewrite bool_decide_eq_true_2.
          + apply (proj2 (String.eqb_neq _ _)) in H. rewrite H. apply orb_true_r. }
      cbn [fst snd]. by rewrite Hstd.
    + assert (mkdirErr os (dir w) = None /\
              openErr os (logPath w (Time.FormatDate now)) = None) as [Hmk Hop].
      { revert Hr. unfold rotate, MkdirAll, OpenFile.
        destruct (mkdirErr os (dir w)); [discriminate|].
        by destruct (openErr os _). }
      destruct (rotate_ok (Time.FormatDate now) w os Hmk Hop)
        as (os' & Hr' & _ & _ & Hhandles & _).
      rewrite (Write_rotating now p w os _ os' Hrot Hr' eq_refl). cbn [fst snd dir LogSink.prefix].
      split_and!; try done.
      * intros f [= <-]. reflexivity.
      * rewrite Hfile, Hhandles, Hh. unfold held. cbn [file].
        destruct (file w) as [old|] eqn:Hold; [|done].
        pose proof (Hn old Hold) as Hnamed.
        cbn [List.filter]. rewrite String.eqb_refl. cbn [negb].
        destruct (String.eqb_spec (logPath w (Time.FormatDate now)) old) as [E|]; [|done].
        exfalso. rewrite Hnamed in E. apply logPath_inj in E.
        destruct Hrot as [?|Hrot]; [done|]. by apply Hrot.
  - rewrite (Write_same_day now p w os f Hf Hd). cbn [fst snd].
    by rewrite Hfile.
Qed.

Lemma writes_keep_order l w os :
  named w -> handles os = held w ->
  dir (snd (fst (writes l w os))) = dir w /\
  LogSink.prefix (snd (fst (writes l w os))) = LogSink.prefix w /\
  named (snd (fst (writes l w os))) /\
  handles (snd (writes l w os)) = held (snd (fst (writes l w os))).
Proof.
  revert w os. induction l as [|[now p] l IH]; intros w os Hn Hh; [done|].
  rewrite writes_cons. cbn [fst snd].
  destruct (Write_keeps_order now p w os Hn Hh) as (D & P & N & H).
  destruct (IH _ _ N H) as (D' & P' & N' & H').
  split_and!; [congruence|congruence|done|done].
Qed.

End LogRunsTheorems.

Section DateFormat.

Import Time.

Lemma Some_pair_inj {A B : Type} (a a' : A) (b b' : B) :
  Some (a, b) = Some (a', b') -> a = a' /\ b = b'.
Proof. by intros [= -> ->]. Qed.

Lemma read2_inj (n n' : nat) (k k' : string) :
  pad2 n k = pad2 n' k' -> (n mod 100 = n' mod 100)%nat /\ k = k'.
Proof.
  intros H. apply (f_equal read2) in H. rewrite !read2_pad2 in H. by injection H.
Qed.

Lemma expect_inj (c : ascii) (k k' : string) : String c k = String c k' -> k = k'.
Proof. by intros [= ->]. Qed.

(** The date in a file name tells the day. *)
Lemma FormatDate_inj (t t' : Civil) :
  valid t -> valid t' -> FormatDate t = FormatDate t' ->
  year t = year t' /\ month t = month t' /\ day t = day t'.
Proof.
  intros (Hy & (Hm & Hd & _) & _) (Hy' & (Hm' & Hd' & _) & _). unfold FormatDate. intros H.
  pose proof (f_equal read2 H) as H4. rewrite !read2_pad4 in H4.
  apply Some_pair_inj in H4 as [Hc Hrest].
  apply read2_inj in Hrest as [Hl Hrest]. apply expect_inj in Hrest.
  apply read2_inj in Hrest as [Hmo Hrest]. apply expect_inj in Hrest.
  apply read2_inj in Hrest as [Hda _].
  rewrite !Nat.mod_small in Hmo, Hda by lia.
  split_and!; [|done|done].
  assert (year t / 100 < 100 /\ year t' / 100 < 100)%nat as [? ?].
  { split; apply Nat.Div0.div_lt_upper_bound; lia. }
  rewrite !(Nat.mod_small (_ / 100)) in Hc by done.
  rewrite (Nat.div_mod_eq (year t) 100), (Nat.div_mod_eq (year t') 100). lia.
Qed.

End DateFormat.

Lemma entries_elsewhere (w : LogSink.dailyFileWriter) (path : string)
    (l : list (Time.Civil * string)) :
  (forall date, path ≠ LogSink.logPath w date) -> LogRuns.entries w path l = EmptyString.
Proof.
  intros Hpath. induction l as [|[now p] l IH]; [done|]. cbn [LogRuns.entries].
  destruct (String.eqb_spec (LogSink.logPath w (Time.FormatDate now)) path) as [E|]; [|done].
  by destruct (Hpath (Time.FormatDate now)).
Qed.

(** X14: with a file system that works, a run of writes through a writer
    in order returns for each write the number of its bytes without error,
    appends to the file of each date exactly the bytes written on that date,
    in the order of the writes, and leaves every other file and standard
    output as they were. *)
Theorem each_day_file_holds_its_entries
    (l : list (Time.Civil * string)) (w : LogSink.dailyFileWriter) (os : LogSink.World) :
  LogRuns.healthy os -> LogRuns.named w ->
  fst (fst (LogRuns.writes l w os)) =
    (fun q => (Z.of_nat (String.length (snd q)), None)) <$> l /\
  (forall date,
     LogRuns.contents (snd (LogRuns.writes l w os)) (LogSink.logPath w date) =
     LogRuns.contents os (LogSink.logPath w date) +:+ LogRuns.entriesOn date l) /\
  (forall path,
     (forall date, path ≠ LogSink.logPath w date) ->
     LogRuns.contents (snd (LogRuns.writes l w os)) path = LogRuns.contents os path) /\
  LogSink.stdout (snd (LogRuns.writes l w os)) = LogSink.stdout os.
Proof.
  intros Hh Hn. destruct (writes_healthy l w os Hh Hn) as (R & _ & _ & S & K).
  split_and!; [done| | |done].
  - intros date. by rewrite K, entries_logPath.
  - intros path Hpath. rewrite K, (entries_elsewhere w path l Hpath).
    apply append_empty_r.
Qed.

Lemma each_day_file_holds_its_entries_witness :
  let os :=
    {| LogSink.mkdirErr := fun _ => None; LogSink.openErr := fun _ => None;
       LogSink.writeErr := fun _ => None; LogSink.stdoutErr := None;
       LogSink.files := ∅; LogSink.handles := []; LogSink.stdout := EmptyString |} in
  let day1 :=
    {| Time.year := 2025; Time.month := 1; Time.day := 1;
       Time.hour := 23; Time.minute := 59; Time.second := 59; Time.offset := 0 |} in
  let day2 :=
    {| Time.year := 2025; Time.month := 1; Time.day := 2;
       Time.hour := 0; Time.minute := 0; Time.second := 0; Time.offset := 0 |} in
  let w := LogSink.newDailyFileWriter "logs" "access" in
  let r := LogRuns.writes [(day1, "a"); (day1, "b"); (day2, "c")]%string w os in
  LogRuns.contents (snd r) "logs/access-2025-01-01.log" = "ab"%string /\
  LogRuns.contents (snd r) "logs/access-2025-01-02.log" = "c"%string.
Proof.
  intros os day1 day2 w r.
  assert (LogRuns.healthy os) as Hh by done.
  assert (LogRuns.named w) as Hn by (intros f; discriminate).
  destruct (each_day_file_holds_its_entries
              [(day1, "a"); (day1, "b"); (day2, "c")]%string w os Hh Hn) as (_ & K & _).
  split.
  - exact (K "2025-01-01"%string).
  - exact (K "2025-01-02"%string).
Defined.

(** X15: on every operating system, failing or not, a writer made by
    [newDailyFileWriter] keeps, through every run of writes, its directory
    and its prefix, has as its open file, when it has one, the file
    [dir/prefix-date.log] of its current date, and holds no other handle
    open: the file of the day before is closed when the next one is opened. *)
Theorem writer_holds_the_file_of_its_day
    (dir prefix : string) (l : list (Time.Civil * string)) (os : LogSink.World) :
  LogSink.handles os = [] ->
  let w := snd (fst (LogRuns.writes l (LogSink.newDailyFileWriter dir prefix) os)) in
  LogSink.dir w = dir /\ LogSink.prefix w = prefix /\
  (forall f, LogSink.file w = Some f ->
             f = dir +:+ "/" +:+ prefix +:+ "-" +:+ LogSink.currentDate w +:+ ".log") /\
  LogSink.handles (snd (LogRuns.writes l (LogSink.newDailyFileWriter dir prefix) os)) =
    match LogSink.file w with Some f => [f] | None => [] end.
Proof.
  intros Hh w.
  destruct (writes_keep_order l (LogSink.newDailyFileWriter dir prefix) os)
    as (D & P & N & H); [by intros f|done|].
  subst w. split_and!; [done|done| |done].
  intros f Hf. rewrite (N f Hf). unfold LogSink.logPath. by rewrite D, P.
Qed.

Lemma writer_holds_the_file_of_its_day_witness :
  let os :=
    {| LogSink.mkdirErr := fun _ => None;
       LogSink.openErr := fun f => if String.eqb f "logs/error-2025-01-02.log"
                                   then Some "too many open files"%string else None;
       LogSink.writeErr := fun _ => None; LogSink.stdoutErr := None;
       LogSink.files := ∅; LogSink.handles := []; LogSink.stdout := EmptyString |} in
  let day1 :=
    {| Time.year := 2025; Time.month := 1; Time.day := 1;
       Time.hour := 23; Time.minute := 59; Time.second := 59; Time.offset := 0 |} in
  let day2 :=
    {| Time.year := 2025; Time.month := 1; Time.day := 2;
       Time.hour := 0; Time.minute := 0; Time.second := 0; Time.offset := 0 |} in
  let r := LogRuns.writes [(day1, "a"); (day2, "b")]%string
             (LogSink.newDailyFileWriter "logs" "error") os in
  LogSink.handles (snd r) =
    match LogSink.file (snd (fst r)) with Some f => [f] | None => [] end /\
  LogSink.stdout (snd r) = "b"%string.
Proof.
  intros os day1 day2 r. split; [|vm_compute; reflexivity].
  apply (writer_holds_the_file_of_its_day "logs" "error" [(day1, "a"); (day2, "b")]%string os
           eq_refl).
Defined.

(** X16: the files of two days are two files: for two instants on
    different calendar days the writer's paths differ. *)
Theorem different_days_different_files
    (w : LogSink.dailyFileWriter) (t t' : Time.Civil) :
  Time.valid t -> Time.valid t' ->
  (Time.year t, Time.month t, Time.day t) ≠ (Time.year t', Time.month t', Time.day t') ->
  LogSink.logPath w (Time.FormatDate t) ≠ LogSink.logPath w (Time.FormatDate t').
Proof.
  intros Hv Hv' Hne E. apply logPath_inj in E.
  destruct (FormatDate_inj t t' Hv Hv' E) as (Hy & Hm & Hd).
  apply Hne. by rewrite Hy, Hm, Hd.
Qed.

Lemma different_days_different_files_witness :
  let day1 :=
    {| Time.year := 2025; Time.month := 1; Time.day := 31;
       Time.hour := 23; Time.minute := 59; Time.second := 59; Time.offset := 0 |} in
  let day2 :=
    {| Time.year := 2025; Time.month := 2; Time.day := 1;
       Time.hour := 0; Time.minute := 0; Time.second := 0; Time.offset := 0 |} in
  LogSink.logPath (LogSink.newDailyFileWriter "logs" "access") (Time.FormatDate day1) ≠
  LogSink.logPath (LogSink.newDailyFileWriter "logs" "access") (Time.FormatDate day2).
Proof.
  intros day1 day2.
  apply (different_days_different_files _ day1 day2).
  - unfold Time.valid. cbn. lia.
  - unfold Time.valid. cbn. lia.
  - discriminate.
Defined.

(** ** More on the buffer pool *)

Section PoolFacts.

Import Pool PoolRuns.

Lemma make_len_cap (n : nat) : len (make n) = n /\ cap (make n) = n.
Proof. unfold make, len, cap. split; [done|apply List.repeat_length]. Qed.

Lemma recycled_reslice0 (b : slice) : cap b = bufferSize -> b ≠ Nil -> recycled (reslice0 b).
Proof. intros Hc Hb. destruct b; [done|]. by split. Qed.

(** What [Get] hands out from a pool in order: a recycled buffer taken from
    the items, or a new buffer of 32 KiB. *)
Lemma Get_ok (pick : option nat) (p : syncPool) :
  pool_ok p ->
  pool_ok (snd (Get pick p)) /\
  ((recycled (fst (Get pick p)) /\
    length (items (snd (Get pick p))) = pred (length (items p)) /\ items p ≠ []) \/
   (fst (Get pick p) = make bufferSize /\ snd (Get pick p) = p)).
Proof.
  intros [Hnew Hitems]. unfold Get, syncGet.
  destruct (pick ≫= _) as [[i v]|] eqn:Hpick.
  - cbn [fst snd].
    destruct pick as [j|]; [|done]. cbn [mbind option_bind] in Hpick.
    destruct (items p !! j) as [v'|] eqn:Hj; [|done]. injection Hpick as <- <-.
    split.
    + split; [done|]. cbn [items]. by apply Forall_delete.
    + left. split_and!.
      * by apply (Forall_lookup_1 _ _ _ _ Hitems Hj).
      * cbn [items]. rewrite length_delete by eauto. lia.
      * intros E. by rewrite E in Hj.
  - rewrite Hnew. cbn [fst snd]. split; [done|]. by right.
Qed.

Lemma copyResponse_ok (pick : option nat) (p : syncPool) :
  pool_ok p ->
  let borrowed := fst (Get pick p) in
  let r := copyResponse pick p in
  pool_ok (fst (fst r)) /\
  len (snd (fst r)) = bufferSize /\ cap (snd (fst r)) = bufferSize /\
  (borrowed = make bufferSize /\ snd r = false \/ recycled borrowed /\ snd r = true).
Proof.
  intros Hp borrowed r. subst borrowed r.
  destruct (Get_ok pick p Hp) as [Hp' Hget]. unfold copyResponse.
  destruct (Get pick p) as [buf p']. cbn [fst snd] in *.
  destruct (make_len_cap bufferSize) as [Hl Hc].
  destruct Hget as [([Hlen Hcap] & _)|[-> ->]].
  - unfold copyBufferStart. rewrite Hlen. cbn [Nat.eqb fst snd].
    split_and!; [|done|done|by right].
    destruct Hp' as [Hnew Hitems].
    destruct buf as [|a n]; [done|]. split; [done|]. cbn [Put syncPut items reslice0].
    constructor; [|done]. by split.
  - unfold copyBufferStart. rewrite Hl. change (bufferSize =? 0)%nat with false.
    cbn [fst snd]. split_and!; [|done|done|by left].
    destruct Hp as [Hnew Hitems]. split; [done|].
    unfold make. cbn [Put syncPut items reslice0]. constructor; [|done].
    split; [done|]. unfold cap. apply List.repeat_length.
Qed.

Lemma copies_cons (pick : option nat) (picks : list (option nat)) (p : syncPool) :
  copies (pick :: picks) p =
  ((fst (Get pick p), snd (fst (copyResponse pick p)), snd (copyResponse pick p)) ::
     fst (copies picks (fst (fst (copyResponse pick p)))),
   snd (copies picks (fst (fst (copyResponse pick p))))).
Proof.
  cbn [copies]. destruct (copyResponse pick p) as [[p' used] fresh]. cbn [fst snd].
  by destruct (copies picks p').
Qed.

Lemma copies_ok (picks : list (option nat)) (p : syncPool) :
  pool_ok p ->
  pool_ok (snd (copies picks p)) /\
  Forall (fun c =>
            len (snd (fst c)) = bufferSize /\
            (fst (fst c) = make bufferSize /\ snd c = false \/
             recycled (fst (fst c)) /\ snd c = true))
         (fst (copies picks p)).
Proof.
  revert p. induction picks as [|pick picks IH]; intros p Hp.
  { split; [done|constructor]. }
  rewrite copies_cons. cbn [fst snd].
  destruct (copyResponse_ok pick p Hp) as (Hp' & Hl & _ & Hb).
  destruct (IH _ Hp') as [Hp'' Hall].
  split; [done|]. constructor; [|done]. by split.
Qed.

End PoolFacts.

(** X17: the pool saves no allocation.  In every run of body copies of the
    proxy, with every choice of [sync.Pool], each copy works with a buffer of
    32 KiB that was allocated for it: either the pool had nothing to give and
    made a new buffer, or it gave a recycled buffer, of length zero, and
    [copyBuffer] allocated a new one in its place.  The pool holds nothing
    but buffers of length zero. *)
Theorem pool_saves_no_allocation (picks : list (option nat)) :
  Forall (fun c =>
            Pool.len (snd (fst c)) = Pool.bufferSize /\
            (fst (fst c) = Pool.make Pool.bufferSize /\ snd c = false \/
             Pool.len (fst (fst c)) = 0%nat /\ snd c = true))
         (fst (PoolRuns.copies picks Pool.newPool)) /\
  Forall (fun b => Pool.len b = 0%nat) (Pool.items (snd (PoolRuns.copies picks Pool.newPool))).
Proof.
  destruct (copies_ok picks Pool.newPool) as [[_ Hitems] Hall].
  { split; [done|constructor]. }
  split.
  - eapply Forall_impl; [exact Hall|].
    intros c [Hl [H|[[H _] Hf]]]; split; try done; [by left|by right].
  - eapply Forall_impl; [exact Hitems|]. by intros b [H _].
Qed.

(** ** The access-log relay *)

Section RelayFacts.

Import LogSink LogRuns Relay.

Lemma Println_Write t now msg w os :
  Println t now msg w os =
  (snd (fst (Write now (line t msg) w os)), snd (Write now (line t msg) w os)).
Proof. unfold Println. by destruct (Write now (line t msg) w os) as [[r w'] os']. Qed.

(** The relay makes the writes of [relayWrites], and takes from the queue as
    many entries as it has written. *)
Lemma relay_writes clock ch w os :
  snd (relay clock ch w os) = snd (writes (relayWrites clock (buf ch)) w os) /\
  snd (fst (relay clock ch w os)) = snd (fst (writes (relayWrites clock (buf ch)) w os)) /\
  buf (fst (fst (relay clock ch w os))) = drop (length clock) (buf ch) /\
  capacity (fst (fst (relay clock ch w os))) = capacity ch.
Proof.
  revert ch w os. induction clock as [|[t now] clock IH]; intros ch w os.
  { cbn [relay relayWrites writes fst snd length]. by rewrite drop_0. }
  cbn [relay]. unfold receive. destruct ch as [b c]. cbn [buf capacity].
  destruct b as [|msg rest].
  { cbn [relayWrites writes fst snd]. by rewrite drop_nil. }
  rewrite Println_Write.
  change (relayWrites ((t, now) :: clock) (msg :: rest))
    with ((now, line t msg) :: relayWrites clock rest).
  rewrite writes_cons. cbn [fst snd length drop].
  apply (IH {| buf := rest; capacity := c |}).
Qed.


End RelayFacts.

(** X18: the relay writes the queue in order and loses nothing.  On an
    operating system where no directory creation, open or write of a file
    fails, the relay goroutine, run for any readings of the clock, leaves in
    the access file of every day what was there followed by the lines of the
    entries it took from the queue on that day, oldest first, each made of
    the header of the logger, the entry and a newline; it takes one entry
    from the head of the queue for each line, and writes nothing to standard
    output. *)
Theorem relay_writes_queue_in_order
    (clock : list (Time.Civil * Time.Civil)) (ch : Server.Chan)
    (w : LogSink.dailyFileWriter) (os : LogSink.World) :
  LogRuns.healthy os -> LogRuns.named w ->
  let r := Relay.relay clock ch w os in
  (forall date,
     LogRuns.contents (snd r) (LogSink.logPath w date) =
     LogRuns.contents os (LogSink.logPath w date) +:+
       LogRuns.entriesOn date (Relay.relayWrites clock (Server.buf ch))) /\
  Server.buf (fst (fst r)) = drop (length clock) (Server.buf ch) /\
  LogSink.stdout (snd r) = LogSink.stdout os.
Proof.
  intros Hh Hn r. subst r.
  destruct (relay_writes clock ch w os) as (Hos & _ & Hbuf & _).
  destruct (writes_healthy (Relay.relayWrites clock (Server.buf ch)) w os Hh Hn)
    as (_ & _ & _ & Hout & Hc).
  rewrite Hos. split_and!; [|done|done].
  intros date. by rewrite Hc, entries_logPath.
Qed.

Lemma relay_writes_queue_in_order_witness :
  let os :=
    {| LogSink.mkdirErr := fun _ => None; LogSink.openErr := fun _ => None;
       LogSink.writeErr := fun _ => None; LogSink.stdoutErr := None;
       LogSink.files := ∅; LogSink.handles := []; LogSink.stdout := EmptyString |} in
  let t :=
    {| Time.year := 2025; Time.month := 1; Time.day := 1;
       Time.hour := 23; Time.minute := 59; Time.second := 59; Time.offset := 0 |} in
  let w := LogSink.newDailyFileWriter "logs" "access" in
  let ch := {| Server.buf := ["a"; "b"; "c"]%string; Server.capacity := 10000 |} in
  let r := Relay.relay [(t, t); (t, t)] ch w os in
  LogRuns.contents (snd r) "logs/access-2025-01-01.log" =
    ("2025/01/01 23:59:59 a" +:+ String "010" ("2025/01/01 23:59:59 b" +:+ String "010" EmptyString))
  /\ Server.buf (fst (fst r)) = ["c"]%string.
Proof.
  intros os t w ch r.
  assert (LogRuns.healthy os) as Hh by done.
  assert (LogRuns.named w) as Hn by (intros f; discriminate).
  destruct (relay_writes_queue_in_order [(t, t); (t, t)] ch w os Hh Hn) as (K & Hb & _).
  split.
  - exact (K "2025-01-01"%string).
  - exact Hb.
Defined.
